(** * signal-controller: the emitter/controller pair of [src/index.ts]

    A shallow embedding of the two classes [SignalEmitter] and
    [SignalController], with the properties of their specification.

    Modelling choices.
    - A signal name is a string; a listener is the identity of a function
      object (a number); emitted arguments are a list of values.
    - The JavaScript heap touched by the two classes is one record, [World]:
      the emitter's private fields [#listeners] and [#lastArgs], the
      [ONCE_SYMBOL] property of the listener function objects, the two method
      slots that [destroy] overwrites, the abort handlers installed by [on],
      and the console.  A ghost [trace] records every listener call, every
      [onError] call and every console line, in order.
    - A JS [Set] is a duplicate-free list in insertion order; a JS [Map] is a
      [gmap].  A [Set] lives in the map by value, so the in-place mutations
      of the source are updates of the map entry.
    - Code runs in the monad [Js]: state passing over [World] plus abrupt
      completion ([Throw]); [try_catch] is the source's try/catch.
    - Listener bodies and the [onError] callback are the environment.  Their
      only modelled behaviour is to return or to throw a value; they do not
      call back into the emitter.  During a dispatch the only mutation of the
      iterated [Set] is therefore the removal of the element just produced,
      which a [Set] iterator tolerates: iterating the live [Set] and
      iterating the elements it held on entry visit the same listeners. *)

From stdpp Require Import gmap strings list fin_maps.

(* [set_solver] clears hypotheses it has already consumed. *)
#[local] Set Warnings "-clear-no-such-hyp".

Local Open Scope Z_scope.
Local Open Scope nat_scope.

(** ** Data *)

Abbreviation Signal := string (only parsing).
Abbreviation Listener := nat (only parsing).
Abbreviation Value := Z (only parsing).
Abbreviation Args := (list Z) (only parsing).
Abbreviation AbortId := nat (only parsing).

(** [SignalListenerOptions]: an absent [once] is falsy. *)
Record SignalListenerOptions := {
  once : bool;
  signal : option AbortId;
}.

(** A callback [(error, signalName, args) => void]: [None] when it returns,
    [Some e] when it throws [e]. *)
Definition ErrorCallback := Value → Signal → Args → option Value.

(** [SignalControllerOptions]: an absent [immediate] is falsy. *)
Record SignalControllerOptions := {
  immediate : bool;
  onError : option ErrorCallback;
}.

(** What the public field [SignalController.onError] holds. *)
Inductive ErrorHandler :=
| Supplied (cb : ErrorCallback)
| console_error_fn.

(** A method slot of an instance: the class method, or the closure that
    [destroy] assigns over it. *)
Inductive Method := Original | Replaced.

(** Who called a listener: the dispatch loop of [EMIT], or the replay at the
    end of [on]. *)
Inductive Via := Dispatch | Replay.

#[global] Instance Via_eq_dec : EqDecision Via.
Proof. solve_decision. Defined.

Inductive Datum :=
| DValue (v : Value)
| DName (s : Signal)
| DArgs (a : Args).

Inductive Event :=
| Called (via : Via) (signalName : Signal) (listener : Listener) (args : Args)
         (seen : gmap string (list nat))
    (* [listener(...args)]; [seen] is [#listeners] at the moment of the call *)
| OnErrorCalled (error : Value) (signalName : Signal) (args : Args)
| ConsoleError (data : list Datum)
| ConsoleWarn (message : string).

Record World := mkWorld {
  listeners : gmap string (list nat);       (* SignalEmitter.#listeners *)
  lastArgs : option (gmap string (list Z)); (* SignalEmitter.#lastArgs *)
  ONCE_SYMBOL : gset nat;                   (* functions whose [ONCE_SYMBOL] is true *)
  emitter_on_slot : Method;                 (* the property [emitter.on] *)
  emit_slot : Method;                       (* the property [controller.emit] *)
  onError_field : ErrorHandler;             (* the property [controller.onError] *)
  abort_handlers : list (nat * (string * nat));
                                            (* 'abort' handlers, in installation order *)
  aborted : gset nat;                       (* abort signals already triggered *)
  trace : list Event;
}.

Definition set_listeners (m : gmap string (list nat)) (w : World) : World :=
  mkWorld m (lastArgs w) (ONCE_SYMBOL w) (emitter_on_slot w) (emit_slot w)
          (onError_field w) (abort_handlers w) (aborted w) (trace w).
Definition set_lastArgs (m : option (gmap string (list Z))) (w : World) : World :=
  mkWorld (listeners w) m (ONCE_SYMBOL w) (emitter_on_slot w) (emit_slot w)
          (onError_field w) (abort_handlers w) (aborted w) (trace w).
Definition set_ONCE_SYMBOL (f : gset nat) (w : World) : World :=
  mkWorld (listeners w) (lastArgs w) f (emitter_on_slot w) (emit_slot w)
          (onError_field w) (abort_handlers w) (aborted w) (trace w).
Definition set_emitter_on_slot (k : Method) (w : World) : World :=
  mkWorld (listeners w) (lastArgs w) (ONCE_SYMBOL w) k (emit_slot w)
          (onError_field w) (abort_handlers w) (aborted w) (trace w).
Definition set_emit_slot (k : Method) (w : World) : World :=
  mkWorld (listeners w) (lastArgs w) (ONCE_SYMBOL w) (emitter_on_slot w) k
          (onError_field w) (abort_handlers w) (aborted w) (trace w).
Definition set_onError_field (h : ErrorHandler) (w : World) : World :=
  mkWorld (listeners w) (lastArgs w) (ONCE_SYMBOL w) (emitter_on_slot w) (emit_slot w)
          h (abort_handlers w) (aborted w) (trace w).
Definition set_abort_handlers (h : list (nat * (string * nat))) (w : World) : World :=
  mkWorld (listeners w) (lastArgs w) (ONCE_SYMBOL w) (emitter_on_slot w) (emit_slot w)
          (onError_field w) h (aborted w) (trace w).
Definition set_aborted (a : gset nat) (w : World) : World :=
  mkWorld (listeners w) (lastArgs w) (ONCE_SYMBOL w) (emitter_on_slot w) (emit_slot w)
          (onError_field w) (abort_handlers w) a (trace w).
Definition set_trace (t : list Event) (w : World) : World :=
  mkWorld (listeners w) (lastArgs w) (ONCE_SYMBOL w) (emitter_on_slot w) (emit_slot w)
          (onError_field w) (abort_handlers w) (aborted w) t.

(** ** The monad of JavaScript code *)

Inductive Completion (A : Type) :=
| Normal (a : A)
| Throw (e : Value).
Arguments Normal {A} a.
Arguments Throw {A} e.

Definition Js (A : Type) : Type := World → Completion A * World.

Definition ret {A} (a : A) : Js A := λ w, (Normal a, w).
Definition throw {A} (e : Value) : Js A := λ w, (Throw e, w).
Definition bind {A B} (m : Js A) (f : A → Js B) : Js B := λ w,
  match m w with
  | (Normal a, w') => f a w'
  | (Throw e, w') => (Throw e, w')
  end.

Declare Scope js_scope.
Delimit Scope js_scope with js.
Notation "x ← y ; z" := (bind y (λ x, z))
  (at level 20, y at level 100, z at level 200, only parsing) : js_scope.
Notation "y ;; z" := (bind y (λ _, z))
  (at level 100, z at level 200, only parsing, right associativity) : js_scope.
Local Open Scope js_scope.

(** [try { m } catch (e) { h e }] *)
Definition try_catch {A} (m : Js A) (h : Value → Js A) : Js A := λ w,
  match m w with
  | (Normal a, w') => (Normal a, w')
  | (Throw e, w') => h e w'
  end.

Definition gets {A} (f : World → A) : Js A := λ w, (Normal (f w), w).
Definition modify (f : World → World) : Js unit := λ w, (Normal tt, f w).
Definition log (e : Event) : Js unit := modify (λ w, set_trace (trace w ++ [e]) w).

(** [xs.forEach(f)] and [for (const x of xs) f(x)] *)
Fixpoint forEach {A} (f : A → Js unit) (xs : list A) : Js unit :=
  match xs with
  | [] => ret tt
  | x :: xs' => f x ;; forEach f xs'
  end.

(** [it.flatMap(f).toArray()] *)
Fixpoint flatMap_toArray {A B} (f : A → Js (list B)) (xs : list A) : Js (list B) :=
  match xs with
  | [] => ret []
  | x :: xs' => ys ← f x; zs ← flatMap_toArray f xs'; ret (ys ++ zs)
  end.

(** The world an operation leaves, whether it returned or threw. *)
Definition after {A} (m : Js A) (w : World) : World := (m w).2.

(** ** JS [Set] of listeners *)

Definition Set_add (x : nat) (xs : list nat) : list nat :=
  if decide (x ∈ xs) then xs else xs ++ [x].
Definition Set_delete (x : nat) (xs : list nat) : list nat :=
  filter (λ y, y ≠ x) xs.

(** The listener set of a signal, empty when the signal has no entry. *)
Definition listeners_of (m : gmap string (list nat)) (s : Signal) : list nat :=
  default [] (m !! s).

(** ** class SignalEmitter *)

Module SignalEmitter.
Section Emitter.
(** The code of the listener function objects: [body l args] is [None]
    when [l(...args)] returns and [Some e] when it throws [e]. *)
Context (body : Listener → Args → option Value).

(** [new SignalEmitter({ immediate })]: the fields of a fresh instance. *)
Definition constructor (immediate : bool)
    : gmap string (list nat) * option (gmap string (list Z)) :=
  (∅, if immediate then Some ∅ else None).

(** [listener(...args)] *)
Definition call (via : Via) (signalName : Signal) (listener : Listener) (args : Args)
    : Js unit :=
  w ← gets id;
  log (Called via signalName listener args (listeners w)) ;;
  match body listener args with
  | Some e => throw e
  | None => ret tt
  end.

(** [off(signalName, listener)], lines 132-142. *)
Definition off (signalName : Signal) (listener : Listener) : Js unit :=
  modify (λ w, set_ONCE_SYMBOL (ONCE_SYMBOL w ∖ {[listener]}) w) ;;
  found ← gets (λ w, listeners w !! signalName);
  match found with
  | None => ret tt
  | Some ls =>
      let ls' := Set_delete listener ls in
      modify (λ w, set_listeners (<[signalName := ls']> (listeners w)) w) ;;
      if decide (length ls' = 0)
      then modify (λ w, set_listeners (delete signalName (listeners w)) w)
      else ret tt
  end.

(** [[EMIT](signalName, ...args)], lines 35-62. *)
Definition EMIT (signalName : Signal) (args : Args) : Js (bool * list Value) :=
  modify (λ w, set_lastArgs ((λ m, <[signalName := args]> m) <$> lastArgs w) w) ;;
  found ← gets (λ w, listeners w !! signalName);
  match found with
  | None => ret (false, [])
  | Some ls =>
      errors ← flatMap_toArray (λ listener,
        flagged ← gets (λ w, bool_decide (listener ∈ ONCE_SYMBOL w));
        (if flagged : bool then off signalName listener else ret tt) ;;
        try_catch (call Dispatch signalName listener args ;; ret [])
                  (λ e, ret [e])) ls;
      ret (true, errors)
  end.

(** [on(signalName, listener)] and [on(signalName, options, listener)],
    lines 67-107: the class method. *)
Definition on (signalName : Signal) (options : option SignalListenerOptions)
    (listener : Listener) : Js unit :=
  (* Add listener to the list *)
  found ← gets (λ w, listeners w !! signalName);
  modify (λ w, set_listeners
    (<[signalName := match found with
                     | Some ls => Set_add listener ls
                     | None => [listener]
                     end]> (listeners w)) w) ;;
  (* Handles `once` option *)
  (if from_option once false options
   then modify (λ w, set_ONCE_SYMBOL ({[listener]} ∪ ONCE_SYMBOL w) w)
   else ret tt) ;;
  (* Handles `signal` option *)
  (match options ≫= signal with
   | Some a => modify (λ w, set_abort_handlers
                 (abort_handlers w ++ [(a, (signalName, listener))]) w)
   | None => ret tt
   end) ;;
  (* Handles `immediate` option *)
  recorded ← gets (λ w, lastArgs w ≫= (λ m, m !! signalName));
  match recorded with
  | Some last => call Replay signalName listener last
  | None => ret tt
  end.

(** The closure [destroy] assigns to [emitter.on], lines 212-220. *)
Definition on_destroyed : Js unit :=
  log (ConsoleWarn
    "Ignoring subscription of new listener to a SignalEmitter whose controller has been destroyed.").

(** A call [emitter.on(...)]: whatever the property holds at that time. *)
Definition call_on (signalName : Signal) (options : option SignalListenerOptions)
    (listener : Listener) : Js unit :=
  slot ← gets emitter_on_slot;
  match slot with
  | Original => on signalName options listener
  | Replaced => on_destroyed
  end.

(** [[CLEAR_SIGNAL](signalName)], lines 144-147. *)
Definition CLEAR_SIGNAL (signalName : Signal) : Js unit :=
  found ← gets (λ w, listeners w !! signalName);
  match found with
  | None => ret tt
  | Some ls => forEach (λ listener, off signalName listener) ls
  end.

(** [Object.keys(o)]: the own enumerable string-keyed properties of [o].
    A [Map] keeps its entries in an internal slot, not in properties, and
    no code of the class sets a property on [#listeners]: whatever the map
    holds, it has no key. *)
Definition Object_keys (m : gmap string (list nat)) : list string := [].

(** [[CLEAR_ALL_SIGNALS]()], lines 149-151. *)
Definition CLEAR_ALL_SIGNALS : Js unit :=
  keys ← gets (λ w, Object_keys (listeners w));
  forEach (λ key, CLEAR_SIGNAL key) keys.

(** [AbortController.abort()] on the abort signal [a]: the 'abort' event
    fires once, and runs the handlers [on] installed for [a], each of which
    is [() => this.off(signalName, listener)]. *)
Definition abort (a : AbortId) : Js unit :=
  fired ← gets (λ w, bool_decide (a ∈ aborted w));
  if fired : bool then ret tt
  else
    modify (λ w, set_aborted ({[a]} ∪ aborted w) w) ;;
    handlers ← gets abort_handlers;
    modify (set_abort_handlers (filter (λ h, h.1 ≠ a) handlers)) ;;
    forEach (λ h : nat * (string * nat), off h.2.1 h.2.2)
            (filter (λ h, h.1 = a) handlers).
End Emitter.
End SignalEmitter.

(** ** class SignalController *)

Module SignalController.
Section Controller.
Context (body : Listener → Args → option Value).
(** [this.options], the constructor's argument ([private readonly]). *)
Context (options : SignalControllerOptions).

(** [new SignalController(options)], lines 164-169. *)
Definition constructor : World :=
  let '(ls, last) := SignalEmitter.constructor (immediate options) in
  {| listeners := ls;
     lastArgs := last;
     ONCE_SYMBOL := ∅;
     emitter_on_slot := Original;
     emit_slot := Original;
     onError_field := from_option Supplied console_error_fn (onError options);
     abort_handlers := [];
     aborted := ∅;
     trace := [] |}.

(** [f(error, signalName, args)] for a callback [f]. *)
Definition call_callback (f : ErrorCallback) (error : Value) (signalName : Signal)
    (args : Args) : Js unit :=
  log (OnErrorCalled error signalName args) ;;
  match f error signalName args with
  | Some e => throw e
  | None => ret tt
  end.

(** [emit(signalName, ...args)], lines 175-186: the class method. *)
Definition emit (signalName : Signal) (args : Args) : Js bool :=
  r ← SignalEmitter.EMIT body signalName args;
  let '(called, errors) := r in
  forEach (λ error,
    try_catch
      (match onError options with            (* this.options.onError?.(...) *)
       | Some f => call_callback f error signalName args
       | None => ret tt
       end)
      (λ e,
        log (ConsoleError [DValue error; DName signalName; DArgs args]) ;;
        log (ConsoleError [DValue e]))) errors ;;
  ret called.

(** The closure [destroy] assigns to [this.emit], lines 202-211. *)
Definition emit_destroyed : Js bool :=
  log (ConsoleWarn
    "Ignoring signal emitted to a SignalController that has been destroyed.") ;;
  ret false.

(** A call [controller.emit(...)]: whatever the property holds at that
    time. *)
Definition call_emit (signalName : Signal) (args : Args) : Js bool :=
  slot ← gets emit_slot;
  match slot with
  | Original => emit signalName args
  | Replaced => emit_destroyed
  end.

(** [off(signalName)], lines 189-191. *)
Definition off (signalName : Signal) : Js unit :=
  SignalEmitter.CLEAR_SIGNAL signalName.

(** [clear()], lines 194-196. *)
Definition clear : Js unit :=
  SignalEmitter.CLEAR_ALL_SIGNALS.

(** [destroy()], lines 200-221. *)
Definition destroy : Js unit :=
  clear ;;
  modify (set_emit_slot Replaced) ;;
  modify (set_emitter_on_slot Replaced).

(** ** Clients *)

(** What code holding the controller and its emitter can do. *)
Inductive Op :=
| On (signalName : Signal) (opts : option SignalListenerOptions) (listener : Listener)
    (* controller.emitter.on(...) *)
| Off (signalName : Signal) (listener : Listener)   (* controller.emitter.off(...) *)
| Emit (signalName : Signal) (args : Args)          (* controller.emit(...) *)
| OffAll (signalName : Signal)                      (* controller.off(signalName) *)
| Clear                                             (* controller.clear() *)
| Destroy                                           (* controller.destroy() *)
| Abort (a : AbortId)                               (* the abort signal [a] fires *)
| SetOnError (f : ErrorCallback).                   (* controller.onError = f *)

Definition exec (op : Op) : Js unit :=
  match op with
  | On s o l => SignalEmitter.call_on body s o l
  | Off s l => SignalEmitter.off s l
  | Emit s args => call_emit s args ;; ret tt
  | OffAll s => off s
  | Clear => clear
  | Destroy => destroy
  | Abort a => SignalEmitter.abort a
  | SetOnError f => modify (set_onError_field (Supplied f))
  end.

(** A client runs operations one after the other; one that throws (a
    replay in [on]) leaves its effects behind and the client goes on. *)
Definition run (ops : list Op) (w : World) : World :=
  foldl (λ w op, after (exec op) w) w ops.

(** The worlds a client can bring a fresh controller to. *)
Definition reachable (w : World) : Prop :=
  ∃ ops, w = run ops constructor.
End Controller.
End SignalController.

(** ** Observations on the trace *)

(** How many times [l] was called through [via], for signal [s]. *)
Definition is_call (via : Via) (s : Signal) (l : Listener) (e : Event) : bool :=
  match e with
  | Called via' s' l' _ _ =>
      bool_decide (via' = via) && bool_decide (s' = s) && bool_decide (l' = l)
  | _ => false
  end.
Definition calls (via : Via) (s : Signal) (l : Listener) (t : list Event) : nat :=
  length (filter (λ e, is_call via s l e = true) t).

(** The listener calls of a trace, in order, without the ghost snapshot. *)
Definition call_view (e : Event) : option (Via * Signal * Listener * Args) :=
  match e with
  | Called via s l args _ => Some (via, s, l, args)
  | _ => None
  end.

(** The invariant of [#listeners]: no signal maps to an empty set, and a set
    holds no listener twice. *)
Definition wf (m : gmap string (list nat)) : Prop :=
  ∀ s ls, m !! s = Some ls → ls ≠ [] ∧ NoDup ls.

(** * Proofs *)

Ltac js_unfold :=
  unfold bind, gets, modify, log, ret, throw, try_catch, after in *.

(** ** The listener sets *)

Lemma elem_of_Set_delete (x y : nat) (xs : list nat) :
  y ∈ Set_delete x xs ↔ y ∈ xs ∧ y ≠ x.
Proof. unfold Set_delete. rewrite list_elem_of_filter. tauto. Qed.

Lemma Set_delete_absent (x : nat) (xs : list nat) :
  x ∉ xs → Set_delete x xs = xs.
Proof.
  unfold Set_delete. induction xs as [|y xs IH]; intros Hx; [done|].
  rewrite filter_cons. apply not_elem_of_cons in Hx as [Hne Hx].
  rewrite decide_True by congruence. by rewrite IH.
Qed.

Lemma filter_all {A} (P : A → Prop) `{∀ x, Decision (P x)} (xs : list A) :
  (∀ x, x ∈ xs → P x) → filter P xs = xs.
Proof.
  induction xs as [|y xs IH]; intros HP; [done|].
  rewrite filter_cons_True by (apply HP; left).
  rewrite IH; [done|]. intros x Hx. apply HP. by right.
Qed.

Lemma NoDup_Set_delete (x : nat) (xs : list nat) :
  NoDup xs → NoDup (Set_delete x xs).
Proof. apply NoDup_filter. Qed.

Lemma NoDup_Set_add (x : nat) (xs : list nat) :
  NoDup xs → NoDup (Set_add x xs).
Proof.
  intros Hnd. unfold Set_add. case_decide; [done|].
  apply NoDup_app. repeat split; [done| |apply NoDup_singleton].
  intros y Hy Hy'. apply list_elem_of_singleton in Hy'. by subst.
Qed.

Lemma elem_of_Set_add (x y : nat) (xs : list nat) :
  y ∈ Set_add x xs ↔ y = x ∨ y ∈ xs.
Proof.
  unfold Set_add. case_decide.
  - split; [tauto|]. intros [->|]; done.
  - rewrite elem_of_app, list_elem_of_singleton. tauto.
Qed.

Lemma Set_add_nonempty (x : nat) (xs : list nat) : Set_add x xs ≠ [].
Proof.
  intros Hnil. assert (x ∈ Set_add x xs) as Hin by (apply elem_of_Set_add; auto).
  rewrite Hnil in Hin. by apply not_elem_of_nil in Hin.
Qed.

(** ** [off] as a function on the registry *)

(** What [off(s, l)] leaves in [#listeners]. *)
Definition unregister (s : Signal) (l : Listener) (m : gmap string (list nat))
    : gmap string (list nat) :=
  match m !! s with
  | None => m
  | Some ls =>
      if decide (length (Set_delete l ls) = 0) then delete s m
      else <[s := Set_delete l ls]> m
  end.

Definition off_world (s : Signal) (l : Listener) (w : World) : World :=
  set_listeners (unregister s l (listeners w))
    (set_ONCE_SYMBOL (ONCE_SYMBOL w ∖ {[l]}) w).

Lemma off_run s l w : SignalEmitter.off s l w = (Normal tt, off_world s l w).
Proof.
  unfold SignalEmitter.off, off_world, unregister. js_unfold. simpl.
  destruct (listeners w !! s) as [ls|] eqn:E; simpl; [|done].
  case_decide; simpl; [|done].
  unfold set_listeners; simpl. by rewrite delete_insert_eq.
Qed.

Lemma unregister_ne s s' l m : s' ≠ s → unregister s l m !! s' = m !! s'.
Proof.
  intros Hne. unfold unregister. destruct (m !! s) eqn:E; [|done].
  case_decide; [by rewrite lookup_delete_ne|by rewrite lookup_insert_ne].
Qed.

Lemma listeners_of_unregister s l m :
  listeners_of (unregister s l m) s = Set_delete l (listeners_of m s).
Proof.
  unfold unregister, listeners_of. destruct (m !! s) as [ls|] eqn:E; simpl.
  - case_decide as Hlen.
    + rewrite lookup_delete_eq. simpl. symmetry. by apply nil_length_inv.
    + by rewrite lookup_insert_eq.
  - by rewrite E.
Qed.

Lemma listeners_of_unregister_ne s s' l m :
  s' ≠ s → listeners_of (unregister s l m) s' = listeners_of m s'.
Proof. intros. unfold listeners_of. by rewrite unregister_ne. Qed.

Lemma unregister_wf s l m : wf m → wf (unregister s l m).
Proof.
  intros Hwf s' ls' Hs'. destruct (decide (s' = s)) as [->|Hne].
  - unfold unregister in Hs'. destruct (m !! s) as [ls|] eqn:E.
    + case_decide as Hlen.
      * by rewrite lookup_delete_eq in Hs'.
      * rewrite lookup_insert_eq in Hs'. injection Hs' as <-. split.
        -- intros Hnil. by rewrite Hnil in Hlen.
        -- apply NoDup_Set_delete. by apply (Hwf s ls).
    + by rewrite E in Hs'.
  - rewrite unregister_ne in Hs' by done. by apply (Hwf s').
Qed.

(** Removing a listener that is not in the set changes nothing, in a
    registry without empty sets. *)
Lemma unregister_absent s l m :
  wf m → l ∉ listeners_of m s → unregister s l m = m.
Proof.
  intros Hwf Hl. unfold unregister, listeners_of in *.
  destruct (m !! s) as [ls|] eqn:E; [|done]. simpl in Hl.
  rewrite Set_delete_absent by done. destruct (Hwf s ls E) as [Hne _].
  case_decide as Hlen; [by apply nil_length_inv in Hlen|by apply insert_id].
Qed.

Lemma lookup_listeners_of (m : gmap string (list nat)) s :
  wf m → m !! s = None ↔ listeners_of m s = [].
Proof.
  intros Hwf. unfold listeners_of. destruct (m !! s) as [ls|] eqn:E; simpl; [|done].
  destruct (Hwf s ls E) as [Hne _]. split; [done|]. intros; by subst.
Qed.

(** ** The dispatch loop *)

(** The world after one turn of the loop of [EMIT]. *)
Definition visit (s : Signal) (args : Args) (w : World) (l : Listener) : World :=
  let w1 := if bool_decide (l ∈ ONCE_SYMBOL w) then off_world s l w else w in
  set_trace (trace w1 ++ [Called Dispatch s l args (listeners w1)]) w1.

Definition record_last (s : Signal) (args : Args) (w : World) : World :=
  set_lastArgs ((λ m, <[s := args]> m) <$> lastArgs w) w.

Section Dispatch.
Context (body : Listener → Args → option Value).

(** What one listener adds to the failures of a dispatch. *)
Definition thrown (args : Args) (l : Listener) : list Value :=
  match body l args with
  | Some e => [e]
  | None => []
  end.

Lemma call_run via s l args w :
  SignalEmitter.call body via s l args w =
    (match body l args with Some e => Throw e | None => Normal tt end,
     set_trace (trace w ++ [Called via s l args (listeners w)]) w).
Proof.
  unfold SignalEmitter.call. js_unfold. simpl. by destruct (body l args).
Qed.

Lemma loop_run s args ls w :
  flatMap_toArray (λ listener,
      flagged ← gets (λ w, bool_decide (listener ∈ ONCE_SYMBOL w));
      (if flagged : bool then SignalEmitter.off s listener else ret tt) ;;
      try_catch (SignalEmitter.call body Dispatch s listener args ;; ret [])
                (λ e, ret [e])) ls w
  = (Normal (flat_map (thrown args) ls), foldl (visit s args) w ls).
Proof.
  revert w. induction ls as [|l ls IH]; intros w; [done|].
  simpl. unfold bind at 1. unfold bind at 1. unfold gets at 1.
  assert (∀ w1, try_catch (SignalEmitter.call body Dispatch s l args ;; ret [])
                  (λ e, ret [e]) w1
            = (Normal (thrown args l),
               set_trace (trace w1 ++ [Called Dispatch s l args (listeners w1)]) w1))
    as Htry.
  { intros w1. unfold try_catch, bind. rewrite call_run. unfold thrown, ret.
    by destruct (body l args). }
  unfold visit at 2.
  destruct (bool_decide (l ∈ ONCE_SYMBOL w)).
  - unfold bind at 1. rewrite off_run, Htry. unfold bind. rewrite IH. done.
  - unfold bind at 1. unfold ret at 1. rewrite Htry. unfold bind. rewrite IH. done.
Qed.

(** [EMIT] returns, and what it returns. *)
Lemma EMIT_run s args w :
  SignalEmitter.EMIT body s args w =
    match listeners w !! s with
    | None => (Normal (false, []), record_last s args w)
    | Some ls => (Normal (true, flat_map (thrown args) ls),
                  foldl (visit s args) (record_last s args w) ls)
    end.
Proof.
  unfold SignalEmitter.EMIT. unfold bind at 1. unfold modify at 1.
  unfold bind at 1. unfold gets at 1. fold (record_last s args w).
  change (listeners (record_last s args w)) with (listeners w).
  destruct (listeners w !! s) as [ls|]; [|done].
  unfold bind at 1. by rewrite loop_run.
Qed.
End Dispatch.

(** *** What the loop leaves behind *)

Lemma visit_fields s args w l :
  lastArgs (visit s args w l) = lastArgs w ∧
  emitter_on_slot (visit s args w l) = emitter_on_slot w ∧
  emit_slot (visit s args w l) = emit_slot w ∧
  onError_field (visit s args w l) = onError_field w ∧
  abort_handlers (visit s args w l) = abort_handlers w ∧
  aborted (visit s args w l) = aborted w.
Proof. unfold visit. by destruct (bool_decide _). Qed.

Lemma loop_fields s args ls w :
  lastArgs (foldl (visit s args) w ls) = lastArgs w ∧
  emitter_on_slot (foldl (visit s args) w ls) = emitter_on_slot w ∧
  emit_slot (foldl (visit s args) w ls) = emit_slot w ∧
  onError_field (foldl (visit s args) w ls) = onError_field w ∧
  abort_handlers (foldl (visit s args) w ls) = abort_handlers w ∧
  aborted (foldl (visit s args) w ls) = aborted w.
Proof.
  revert w. induction ls as [|l ls IH]; intros w; [done|]. simpl.
  destruct (IH (visit s args w l)) as (-> & -> & -> & -> & -> & ->).
  apply visit_fields.
Qed.

Lemma visit_listeners s args w l :
  listeners (visit s args w l) =
    if bool_decide (l ∈ ONCE_SYMBOL w) then unregister s l (listeners w)
    else listeners w.
Proof. unfold visit. by destruct (bool_decide _). Qed.

Lemma visit_ONCE s args w l :
  ONCE_SYMBOL (visit s args w l) = ONCE_SYMBOL w ∖ {[l]}.
Proof.
  unfold visit. destruct (bool_decide _) eqn:E; simpl; [done|].
  apply bool_decide_eq_false in E. set_solver.
Qed.

Lemma visit_trace s args w l :
  trace (visit s args w l) =
    trace w ++ [Called Dispatch s l args (listeners (visit s args w l))].
Proof. unfold visit. by destruct (bool_decide _). Qed.

Lemma loop_ONCE s args ls w :
  ONCE_SYMBOL (foldl (visit s args) w ls) = ONCE_SYMBOL w ∖ list_to_set ls.
Proof.
  revert w. induction ls as [|l ls IH]; intros w; simpl; [set_solver|].
  rewrite IH, visit_ONCE. set_solver.
Qed.

Lemma loop_lookup_ne s s' args ls w :
  s' ≠ s → listeners (foldl (visit s args) w ls) !! s' = listeners w !! s'.
Proof.
  intros Hne. revert w. induction ls as [|l ls IH]; intros w; [done|]. simpl.
  rewrite IH, visit_listeners. destruct (bool_decide _); [|done].
  by apply unregister_ne.
Qed.

Lemma loop_wf s args ls w :
  wf (listeners w) → wf (listeners (foldl (visit s args) w ls)).
Proof.
  revert w. induction ls as [|l ls IH]; intros w Hwf; [done|]. simpl.
  apply IH. rewrite visit_listeners. destruct (bool_decide _); [|done].
  by apply unregister_wf.
Qed.

(** The set of [s] after the loop: the listeners visited that carried the
    fire-once flag are gone, the others stay, in order. *)
Lemma loop_listeners_of s args ls w :
  listeners_of (listeners (foldl (visit s args) w ls)) s =
    filter (λ x, ¬ (x ∈ ls ∧ x ∈ ONCE_SYMBOL w)) (listeners_of (listeners w) s).
Proof.
  revert w. induction ls as [|l ls IH]; intros w; simpl.
  - symmetry. apply filter_all. intros x _ [Hx _].
    by apply not_elem_of_nil in Hx.
  - rewrite IH, visit_ONCE, visit_listeners.
    destruct (bool_decide (l ∈ ONCE_SYMBOL w)) eqn:E.
    + apply bool_decide_eq_true in E. rewrite listeners_of_unregister.
      unfold Set_delete. rewrite list_filter_filter.
      apply list_filter_iff. intros x. rewrite elem_of_cons. split.
      * intros [H1 H2] [[->|Hx] Ho]; [done|]. apply H1. split; [done|]. set_solver.
      * intros H. split.
        -- intros [Hx Ho]. apply H. split; [by right|]. set_solver.
        -- intros ->. apply H. split; [by left|done].
    + apply bool_decide_eq_false in E.
      apply list_filter_iff. intros x. rewrite elem_of_cons. split.
      * intros H [[->|Hx] Ho]; [done|]. apply H. split; [done|]. set_solver.
      * intros H [Hx Ho]. apply H. split; [by right|]. set_solver.
Qed.

(** ** Traces *)

Lemma calls_app via s l t1 t2 :
  calls via s l (t1 ++ t2) = calls via s l t1 + calls via s l t2.
Proof. unfold calls. by rewrite filter_app, length_app. Qed.

Lemma calls_cons via s l e t :
  calls via s l (e :: t) = (if is_call via s l e then 1 else 0) + calls via s l t.
Proof.
  unfold calls. rewrite filter_cons. case_decide as Hc.
  - by rewrite Hc.
  - by destruct (is_call via s l e).
Qed.

Lemma calls_nil via s l : calls via s l [] = 0.
Proof. done. Qed.

(** The events of the loop of [EMIT] over [ls], from the world [w]. *)
Fixpoint dispatch_events (s : Signal) (args : Args) (w : World) (ls : list Listener)
    : list Event :=
  match ls with
  | [] => []
  | l :: ls' =>
      Called Dispatch s l args (listeners (visit s args w l))
        :: dispatch_events s args (visit s args w l) ls'
  end.

Lemma loop_trace s args ls w :
  trace (foldl (visit s args) w ls) = trace w ++ dispatch_events s args w ls.
Proof.
  revert w. induction ls as [|l ls IH]; intros w; simpl.
  - by rewrite app_nil_r.
  - rewrite IH, visit_trace. by rewrite <- app_assoc.
Qed.

(** Every listener of [ls] is called once, in the order of [ls], with the
    emitted arguments. *)
Lemma dispatch_events_view s args w ls :
  map call_view (dispatch_events s args w ls) =
    map (λ l, Some (Dispatch, s, l, args)) ls.
Proof.
  revert w. induction ls as [|l ls IH]; intros w; simpl; [done|]. by rewrite IH.
Qed.

(** A listener that carries the flag when the loop starts (or is not in
    the set at all) is not in the set of [s] when it is called. *)
Lemma dispatch_events_seen s args w ls :
  Forall2 (λ l ev, ∃ seen, ev = Called Dispatch s l args seen ∧
             (l ∈ ONCE_SYMBOL w ∨ l ∉ listeners_of (listeners w) s →
              l ∉ listeners_of seen s))
          ls (dispatch_events s args w ls).
Proof.
  revert w. induction ls as [|l ls IH]; intros w; simpl; [constructor|].
  assert (∀ x, x ∉ listeners_of (listeners w) s →
               x ∉ listeners_of (listeners (visit s args w l)) s) as Hkeep.
  { intros x Hx. rewrite visit_listeners. destruct (bool_decide _); [|done].
    rewrite listeners_of_unregister, elem_of_Set_delete. tauto. }
  constructor.
  - exists (listeners (visit s args w l)). split; [reflexivity|].
    intros [Ho|Hn]; [|by apply Hkeep].
    rewrite visit_listeners, bool_decide_eq_true_2 by done.
    rewrite listeners_of_unregister, elem_of_Set_delete. tauto.
  - eapply Forall2_impl; [apply IH|].
    intros x ev (seen & -> & Himp). exists seen. split; [reflexivity|].
    intros Hx. apply Himp. rewrite visit_ONCE.
    destruct Hx as [Ho|Hn]; [|right; by apply Hkeep].
    destruct (decide (x = l)) as [->|Hne]; [|left; set_solver].
    right. rewrite visit_listeners, bool_decide_eq_true_2 by done.
    rewrite listeners_of_unregister, elem_of_Set_delete. tauto.
Qed.

Lemma calls_dispatch_events s args w ls l :
  calls Dispatch s l (dispatch_events s args w ls) = length (filter (λ x, x = l) ls).
Proof.
  revert w. induction ls as [|x ls IH]; intros w; simpl; [done|].
  rewrite calls_cons, IH, filter_cons. simpl.
  rewrite !bool_decide_eq_true_2 by done. simpl.
  case_decide; [by rewrite bool_decide_eq_true_2|by rewrite bool_decide_eq_false_2].
Qed.

Lemma calls_dispatch_events_other via s s' args w ls l :
  via ≠ Dispatch ∨ s' ≠ s →
  calls via s' l (dispatch_events s args w ls) = 0.
Proof.
  intros Hne. revert w. induction ls as [|x ls IH]; intros w; simpl; [done|].
  rewrite calls_cons, IH. simpl. destruct Hne as [Hne|Hne].
  - by rewrite (bool_decide_eq_false_2 (Dispatch = via)).
  - rewrite (bool_decide_eq_false_2 (s = s')) by done. by rewrite andb_false_r.
Qed.

Lemma filter_eq_NoDup (l : nat) (ls : list nat) :
  NoDup ls → length (filter (λ x, x = l) ls) = if decide (l ∈ ls) then 1 else 0.
Proof.
  induction 1 as [|x ls Hx Hnd IH]; [done|].
  rewrite filter_cons. destruct (decide (x = l)) as [->|Hne]; simpl.
  - rewrite IH. rewrite decide_False by done. rewrite decide_True; [done|left].
  - rewrite IH. destruct (decide (l ∈ ls)).
    + rewrite decide_True; [done|by right].
    + rewrite decide_False; [done|]. rewrite elem_of_cons. naive_solver.
Qed.

(** ** Subscription *)

(** What [on(s, options, l)] leaves before its replay step. *)
Definition registered (s : Signal) (options : option SignalListenerOptions)
    (l : Listener) (w : World) : World :=
  let w1 := set_listeners
    (<[s := Set_add l (listeners_of (listeners w) s)]> (listeners w)) w in
  let w2 := if from_option once false options
            then set_ONCE_SYMBOL ({[l]} ∪ ONCE_SYMBOL w1) w1 else w1 in
  match options ≫= signal with
  | Some a => set_abort_handlers (abort_handlers w2 ++ [(a, (s, l))]) w2
  | None => w2
  end.

Lemma registered_fields s options l w :
  listeners (registered s options l w) =
    <[s := Set_add l (listeners_of (listeners w) s)]> (listeners w) ∧
  ONCE_SYMBOL (registered s options l w) =
    (if from_option once false options then {[l]} ∪ ONCE_SYMBOL w else ONCE_SYMBOL w) ∧
  lastArgs (registered s options l w) = lastArgs w ∧
  trace (registered s options l w) = trace w ∧
  emitter_on_slot (registered s options l w) = emitter_on_slot w ∧
  emit_slot (registered s options l w) = emit_slot w.
Proof.
  unfold registered.
  destruct (options ≫= signal); destruct (from_option once false options); done.
Qed.

Section Subscription.
Context (body : Listener → Args → option Value).

(** The world [on] leaves, and how it completes: the replay is its last
    step, and what the listener throws there is what [on] throws. *)
Definition on_world (s : Signal) (options : option SignalListenerOptions)
    (l : Listener) (w : World) : World :=
  let w3 := registered s options l w in
  match lastArgs w ≫= (λ m, m !! s) with
  | Some last => set_trace (trace w3 ++ [Called Replay s l last (listeners w3)]) w3
  | None => w3
  end.

Definition on_completion (s : Signal) (l : Listener) (w : World) : Completion unit :=
  match lastArgs w ≫= (λ m, m !! s) with
  | Some last => match body l last with Some e => Throw e | None => Normal tt end
  | None => Normal tt
  end.

Lemma on_run s options l w :
  SignalEmitter.on body s options l w = (on_completion s l w, on_world s options l w).
Proof.
  unfold SignalEmitter.on, on_world, on_completion.
  unfold bind at 1. unfold gets at 1. unfold bind at 1. unfold modify at 1.
  assert (match listeners w !! s with
          | Some ls => Set_add l ls
          | None => [l]
          end = Set_add l (listeners_of (listeners w) s)) as ->.
  { unfold listeners_of. by destruct (listeners w !! s). }
  pose proof (registered_fields s options l w) as (_ & _ & Hlast & _).
  revert Hlast. unfold registered.
  set (w1 := set_listeners _ w).
  destruct (from_option once false options);
    destruct (options ≫= signal) as [a|]; intros Hlast;
    js_unfold; simpl in *;
    destruct (lastArgs w ≫= (λ m, m !! s)) as [last|] eqn:E; simpl;
    rewrite ?E; try done;
    rewrite call_run; by destruct (body l last).
Qed.

Lemma call_on_run s options l w :
  SignalEmitter.call_on body s options l w =
    match emitter_on_slot w with
    | Original => (on_completion s l w, on_world s options l w)
    | Replaced => (Normal tt, set_trace (trace w ++ [ConsoleWarn
        "Ignoring subscription of new listener to a SignalEmitter whose controller has been destroyed."]) w)
    end.
Proof.
  unfold SignalEmitter.call_on. unfold bind, gets.
  destruct (emitter_on_slot w); [apply on_run|done].
Qed.
End Subscription.

Lemma registered_wf s options l w :
  wf (listeners w) → wf (listeners (registered s options l w)).
Proof.
  intros Hwf. destruct (registered_fields s options l w) as (-> & _).
  intros s' ls' Hs'. destruct (decide (s' = s)) as [->|Hne].
  - rewrite lookup_insert_eq in Hs'. injection Hs' as <-.
    split; [apply Set_add_nonempty|]. apply NoDup_Set_add.
    unfold listeners_of. destruct (listeners w !! s) as [ls|] eqn:E; simpl.
    + by apply (Hwf s ls).
    + apply NoDup_nil_2.
  - rewrite lookup_insert_ne in Hs' by done. by apply (Hwf s').
Qed.

Lemma on_world_listeners s options l w :
  listeners (on_world s options l w) = listeners (registered s options l w).
Proof. unfold on_world. by destruct (lastArgs w ≫= _). Qed.

(** ** Emission through the controller *)

Definition add_events (evs : list Event) (w : World) : World :=
  set_trace (trace w ++ evs) w.

Lemma add_events_nil w : add_events [] w = w.
Proof. unfold add_events, set_trace. rewrite app_nil_r. by destruct w. Qed.

Lemma add_events_app evs1 evs2 w :
  add_events evs2 (add_events evs1 w) = add_events (evs1 ++ evs2) w.
Proof. unfold add_events, set_trace. simpl. by rewrite app_assoc. Qed.

Section Emission.
Context (body : Listener → Args → option Value).
Context (options : SignalControllerOptions).

(** What the loop of [emit] does with one failure of the dispatch. *)
Definition report (s : Signal) (args : Args) (error : Value) : list Event :=
  match onError options with
  | None => []
  | Some f =>
      OnErrorCalled error s args ::
      match f error s args with
      | Some e => [ConsoleError [DValue error; DName s; DArgs args];
                   ConsoleError [DValue e]]
      | None => []
      end
  end.

Lemma report_loop_run s args errors w :
  forEach (λ error,
    try_catch
      (match onError options with
       | Some f => SignalController.call_callback f error s args
       | None => ret tt
       end)
      (λ e,
        log (ConsoleError [DValue error; DName s; DArgs args]) ;;
        log (ConsoleError [DValue e]))) errors w
  = (Normal tt, add_events (flat_map (report s args) errors) w).
Proof.
  revert w. induction errors as [|error errors IH]; intros w; simpl.
  - by rewrite add_events_nil.
  - unfold bind at 1. unfold report at 1.
    destruct (onError options) as [f|]; simpl.
    + unfold try_catch, SignalController.call_callback. js_unfold. simpl.
      destruct (f error s args) as [e|]; simpl; rewrite IH;
        unfold add_events, set_trace; simpl;
        by rewrite <- ?app_assoc.
    + unfold try_catch, ret. rewrite IH. done.
Qed.

(** [emit] returns, never throws, and reports the failures of the
    dispatch in order. *)
Lemma emit_run s args w :
  SignalController.emit body options s args w =
    match listeners w !! s with
    | None => (Normal false, record_last s args w)
    | Some ls =>
        (Normal true,
         add_events (flat_map (report s args) (flat_map (thrown body args) ls))
                    (foldl (visit s args) (record_last s args w) ls))
    end.
Proof.
  unfold SignalController.emit. unfold bind at 1. rewrite EMIT_run.
  destruct (listeners w !! s) as [ls|].
  - unfold bind at 1. rewrite report_loop_run. done.
  - done.
Qed.

Lemma call_emit_run s args w :
  SignalController.call_emit body options s args w =
    match emit_slot w with
    | Original => SignalController.emit body options s args w
    | Replaced => (Normal false, add_events [ConsoleWarn
        "Ignoring signal emitted to a SignalController that has been destroyed."] w)
    end.
Proof.
  unfold SignalController.call_emit. unfold bind, gets.
  by destruct (emit_slot w).
Qed.
End Emission.

(** ** Teardown *)

Lemma forEach_off_run s ls w :
  forEach (λ listener, SignalEmitter.off s listener) ls w =
    (Normal tt, foldl (λ w l, off_world s l w) w ls).
Proof.
  revert w. induction ls as [|l ls IH]; intros w; [done|].
  simpl. unfold bind. by rewrite off_run, IH.
Qed.

Lemma CLEAR_SIGNAL_run s w :
  SignalEmitter.CLEAR_SIGNAL s w =
    (Normal tt, foldl (λ w l, off_world s l w) w (listeners_of (listeners w) s)).
Proof.
  unfold SignalEmitter.CLEAR_SIGNAL, listeners_of. unfold bind, gets.
  destruct (listeners w !! s) as [ls|]; [apply forEach_off_run|done].
Qed.

(** [Object.keys] of a [Map] is empty: the loop of [CLEAR_ALL_SIGNALS] has
    no turn, and [clear] changes nothing. *)
Lemma CLEAR_ALL_SIGNALS_run w : SignalEmitter.CLEAR_ALL_SIGNALS w = (Normal tt, w).
Proof. reflexivity. Qed.

Lemma clear_run w : SignalController.clear w = (Normal tt, w).
Proof. reflexivity. Qed.

Lemma destroy_run w :
  SignalController.destroy w =
    (Normal tt, set_emitter_on_slot Replaced (set_emit_slot Replaced w)).
Proof. reflexivity. Qed.

Lemma abort_run a w :
  SignalEmitter.abort a w =
    if bool_decide (a ∈ aborted w) then (Normal tt, w)
    else (Normal tt,
          foldl (λ w (h : nat * (string * nat)), off_world h.2.1 h.2.2 w)
            (set_abort_handlers (filter (λ h, h.1 ≠ a) (abort_handlers w))
               (set_aborted ({[a]} ∪ aborted w) w))
            (filter (λ h, h.1 = a) (abort_handlers w))).
Proof.
  unfold SignalEmitter.abort. unfold bind at 1. unfold gets at 1.
  destruct (bool_decide (a ∈ aborted w)); [done|].
  js_unfold. simpl.
  generalize (set_abort_handlers (filter (λ h, h.1 ≠ a) (abort_handlers w))
               (set_aborted ({[a]} ∪ aborted w) w)).
  induction (filter (λ h, h.1 = a) (abort_handlers w)) as [|h hs IH]; intros w0; [done|].
  simpl. unfold bind. by rewrite off_run, IH.
Qed.

(** ** The invariant of the registry *)

Lemma foldl_off_wf {A} (f : A → string) (g : A → nat) (xs : list A) w :
  wf (listeners w) → wf (listeners (foldl (λ w x, off_world (f x) (g x) w) w xs)).
Proof.
  revert w. induction xs as [|x xs IH]; intros w Hwf; [done|]. simpl.
  apply IH. by apply unregister_wf.
Qed.

Section Invariant.
Context (body : Listener → Args → option Value).
Context (options : SignalControllerOptions).

Lemma constructor_wf : wf (listeners (SignalController.constructor options)).
Proof.
  unfold SignalController.constructor, SignalEmitter.constructor. simpl.
  intros s ls Hs. by rewrite lookup_empty in Hs.
Qed.

Lemma exec_wf op w :
  wf (listeners w) → wf (listeners (after (SignalController.exec body options op) w)).
Proof.
  intros Hwf. unfold after. destruct op as [s o l|s l|s args|s| | |a|f]; simpl.
  - rewrite call_on_run. destruct (emitter_on_slot w); simpl; [|done].
    rewrite on_world_listeners. by apply registered_wf.
  - rewrite off_run. simpl. by apply unregister_wf.
  - unfold bind. rewrite call_emit_run. destruct (emit_slot w); simpl; [|done].
    rewrite emit_run. destruct (listeners w !! s) as [ls|]; simpl; [|done].
    by apply loop_wf.
  - unfold SignalController.off. rewrite CLEAR_SIGNAL_run. simpl.
    by apply (foldl_off_wf (λ _, s) id).
  - done.
  - done.
  - rewrite abort_run. destruct (bool_decide _); simpl; [done|].
    by apply (foldl_off_wf (λ h : nat * (string * nat), h.2.1) (λ h, h.2.2)).
  - done.
Qed.

Lemma run_wf ops w :
  wf (listeners w) → wf (listeners (SignalController.run body options ops w)).
Proof.
  revert w. induction ops as [|op ops IH]; intros w Hwf; [done|].
  simpl. apply IH. by apply exec_wf.
Qed.

Lemma reachable_wf w :
  SignalController.reachable body options w → wf (listeners w).
Proof. intros [ops ->]. apply run_wf, constructor_wf. Qed.
End Invariant.

(** ** One emission, seen from one listener *)

(** A dispatch call of [l] for [s] found [l] already out of the set of [s]. *)
Definition unseen (s : Signal) (l : Listener) (ev : Event) : Prop :=
  match ev with
  | Called Dispatch s' l' _ seen => s' = s → l' = l → l ∉ listeners_of seen s
  | _ => True
  end.

Lemma dispatch_events_unseen s args w ls l :
  l ∈ ONCE_SYMBOL w ∨ l ∉ listeners_of (listeners w) s →
  Forall (unseen s l) (dispatch_events s args w ls).
Proof.
  intros Hl. eapply Forall2_Forall_r; [apply dispatch_events_seen|].
  apply Forall_forall. intros x _ ev (seen & -> & Himp). simpl.
  intros _ ->. by apply Himp.
Qed.

Definition warn_emit : Event :=
  ConsoleWarn "Ignoring signal emitted to a SignalController that has been destroyed.".

Section OneEmission.
Context (body : Listener → Args → option Value).
Context (options : SignalControllerOptions).

Lemma calls_report via s' l s args errors :
  calls via s' l (flat_map (report options s args) errors) = 0.
Proof.
  induction errors as [|error errors IH]; [done|]. simpl.
  rewrite calls_app, IH. unfold report.
  destruct (onError options) as [f|]; [|done].
  by destruct (f error s args).
Qed.

Lemma report_unseen s' l s args errors :
  Forall (unseen s' l) (flat_map (report options s args) errors).
Proof.
  induction errors as [|error errors IH]; [constructor|]. simpl.
  apply Forall_app_2; [|done]. unfold report.
  destruct (onError options) as [f|]; [|constructor].
  destruct (f error s args); repeat constructor.
Qed.

Lemma emit_world s args w :
  emit_slot w = Original →
  after (SignalController.call_emit body options s args) w =
    add_events
      (flat_map (report options s args)
         (flat_map (thrown body args) (listeners_of (listeners w) s)))
      (foldl (visit s args) (record_last s args w) (listeners_of (listeners w) s)).
Proof.
  intros Hslot. unfold after. rewrite call_emit_run, Hslot, emit_run.
  unfold listeners_of. destruct (listeners w !! s) as [ls|]; simpl; [done|].
  by rewrite add_events_nil.
Qed.

Lemma emit_summary s args w l :
  emit_slot w = Original →
  let ls := listeners_of (listeners w) s in
  let w' := after (SignalController.call_emit body options s args) w in
  emit_slot w' = Original ∧
  emitter_on_slot w' = emitter_on_slot w ∧
  ONCE_SYMBOL w' = ONCE_SYMBOL w ∖ list_to_set ls ∧
  listeners_of (listeners w') s = filter (λ x, ¬ (x ∈ ls ∧ x ∈ ONCE_SYMBOL w)) ls ∧
  (∀ s', s' ≠ s → listeners w' !! s' = listeners w !! s') ∧
  ∃ evs, trace w' = trace w ++ evs ∧
    calls Dispatch s l evs = length (filter (λ x, x = l) ls) ∧
    calls Replay s l evs = 0 ∧
    (l ∈ ONCE_SYMBOL w ∨ l ∉ ls → Forall (unseen s l) evs).
Proof.
  intros Hslot ls w'. subst w'. rewrite emit_world by done. fold ls.
  set (w0 := record_last s args w).
  destruct (loop_fields s args ls w0) as (_ & Hon & Hemit & _).
  unfold add_events. simpl. repeat split.
  - by rewrite Hemit.
  - by rewrite Hon.
  - by rewrite loop_ONCE.
  - by rewrite loop_listeners_of.
  - intros s' Hne. by rewrite loop_lookup_ne.
  - eexists. split; [rewrite loop_trace, <- app_assoc; reflexivity|].
    rewrite !calls_app, !calls_report, calls_dispatch_events.
    rewrite calls_dispatch_events_other by (left; done).
    repeat split; [lia|].
    intros Hl. apply Forall_app_2; [|apply report_unseen].
    by apply dispatch_events_unseen.
Qed.

(** *** A run of emissions of one signal *)

Lemma run_cons op ops w :
  SignalController.run body options (op :: ops) w =
    SignalController.run body options ops
      (after (SignalController.exec body options op) w).
Proof. reflexivity. Qed.

Lemma after_exec_Emit s args w :
  after (SignalController.exec body options (SignalController.Emit s args)) w =
    after (SignalController.call_emit body options s args) w.
Proof.
  unfold after. simpl. unfold bind.
  by destruct (SignalController.call_emit body options s args w) as [[b|e] w'].
Qed.

Lemma listeners_of_NoDup (m : gmap string (list nat)) s :
  wf m → NoDup (listeners_of m s).
Proof.
  intros Hwf. unfold listeners_of. destruct (m !! s) as [ls|] eqn:E; simpl.
  - by apply (Hwf s ls).
  - apply NoDup_nil_2.
Qed.

(** One emission of [s] while [l] is not in the set of [s]. *)
Lemma emission_absent s l args w :
  wf (listeners w) →
  l ∉ listeners_of (listeners w) s →
  let w' := after (SignalController.call_emit body options s args) w in
  (l ∉ listeners_of (listeners w') s) ∧
  ∃ evs, trace w' = trace w ++ evs ∧
         calls Dispatch s l evs = 0 ∧ Forall (unseen s l) evs.
Proof.
  intros Hwf Hl w'. subst w'. destruct (emit_slot w) eqn:Hslot.
  - pose proof (emit_summary s args w l Hslot) as
      (_ & _ & _ & Hls & _ & evs & Ht & Hc & _ & Hu).
    split.
    + rewrite Hls. rewrite list_elem_of_filter. tauto.
    + exists evs. repeat split; [done| |by apply Hu; right].
      rewrite Hc, filter_eq_NoDup by (by apply listeners_of_NoDup).
      by rewrite decide_False.
  - unfold after. rewrite call_emit_run, Hslot. simpl. split; [done|].
    eexists. split; [reflexivity|]. split; [done|]. repeat constructor.
Qed.

(** While [l] is not in the set of [s], emissions of [s] do not call it
    and do not bring it back. *)
Lemma emissions_absent s l emissions w :
  wf (listeners w) →
  l ∉ listeners_of (listeners w) s →
  let w' := SignalController.run body options
              (map (SignalController.Emit s) emissions) w in
  (l ∉ listeners_of (listeners w') s) ∧
  ∃ evs, trace w' = trace w ++ evs ∧
         calls Dispatch s l evs = 0 ∧ Forall (unseen s l) evs.
Proof.
  revert w. induction emissions as [|args emissions IH]; intros w Hwf Hl.
  - split; [done|]. exists []. by rewrite app_nil_r.
  - cbv zeta. rewrite map_cons, run_cons, after_exec_Emit.
    destruct (emission_absent s l args w Hwf Hl) as (Hl1 & evs1 & Ht1 & Hc1 & Hu1).
    assert (wf (listeners (after (SignalController.call_emit body options s args) w)))
      as Hwf1 by (rewrite <- after_exec_Emit; by apply exec_wf).
    destruct (IH _ Hwf1 Hl1) as (Hl2 & evs2 & Ht2 & Hc2 & Hu2).
    split; [done|]. exists (evs1 ++ evs2).
    rewrite Ht2, Ht1, <- app_assoc. split; [done|].
    rewrite calls_app, Hc1, Hc2. split; [done|]. by apply Forall_app_2.
Qed.

(** After [destroy], emissions only add warnings to the console. *)
Lemma emissions_destroyed s emissions w :
  emit_slot w = Replaced →
  ∃ k, SignalController.run body options
         (map (SignalController.Emit s) emissions) w =
       add_events (replicate k warn_emit) w.
Proof.
  revert w. induction emissions as [|a em IH]; intros w Hs.
  - exists 0. simpl. by rewrite add_events_nil.
  - rewrite map_cons, run_cons, after_exec_Emit.
    assert (after (SignalController.call_emit body options s a) w =
            add_events [warn_emit] w) as ->
      by (unfold after; by rewrite call_emit_run, Hs).
    destruct (IH (add_events [warn_emit] w)) as [k Hk]; [done|].
    exists (S k). by rewrite Hk, add_events_app.
Qed.

Lemma warnings_no_call via s l k :
  calls via s l (replicate k warn_emit) = 0 ∧
  Forall (unseen s l) (replicate k warn_emit).
Proof.
  induction k as [|k [IH1 IH2]]; [by split; [|constructor]|].
  simpl. rewrite calls_cons. simpl. split; [done|]. by constructor.
Qed.

(** A listener that is in the set of [s] and carries the fire-once flag:
    the first emission of [s] calls it once, after taking it out of the
    set; the later ones do not call it. *)
Lemma emissions_once s l emissions w :
  wf (listeners w) →
  l ∈ listeners_of (listeners w) s →
  l ∈ ONCE_SYMBOL w →
  let w' := SignalController.run body options
              (map (SignalController.Emit s) emissions) w in
  ∃ evs, trace w' = trace w ++ evs ∧
         calls Dispatch s l evs ≤ 1 ∧
         Forall (unseen s l) evs ∧
         (emit_slot w = Original → emissions ≠ [] →
          calls Dispatch s l evs = 1 ∧ l ∉ listeners_of (listeners w') s).
Proof.
  intros Hwf Hl Ho. destruct emissions as [|args emissions].
  - exists []. rewrite app_nil_r. split; [done|]. split; [rewrite calls_nil; lia|].
    split; [constructor|]. by intros _ Hne.
  - cbv zeta. rewrite map_cons, run_cons, after_exec_Emit.
    assert (wf (listeners (after (SignalController.call_emit body options s args) w)))
      as Hwf1 by (rewrite <- after_exec_Emit; by apply exec_wf).
    destruct (emit_slot w) eqn:Hslot.
    + pose proof (emit_summary s args w l Hslot) as
        (_ & _ & _ & Hls & _ & evs1 & Ht1 & Hc1 & _ & Hu1).
      rewrite filter_eq_NoDup, decide_True in Hc1
        by first [done | by apply listeners_of_NoDup].
      assert (l ∉ listeners_of (listeners
                (after (SignalController.call_emit body options s args) w)) s) as Hl1.
      { rewrite Hls, list_elem_of_filter. tauto. }
      destruct (emissions_absent s l emissions _ Hwf1 Hl1)
        as (Hl2 & evs2 & Ht2 & Hc2 & Hu2).
      exists (evs1 ++ evs2). rewrite Ht2, Ht1, <- app_assoc, calls_app, Hc1, Hc2.
      split; [done|]. split; [lia|].
      split; [apply Forall_app_2; [apply Hu1; by left|done]|].
      by intros _ _.
    + destruct (emissions_destroyed s (args :: emissions) w Hslot) as [k Hk].
      rewrite map_cons, run_cons, after_exec_Emit in Hk. rewrite Hk.
      destruct (warnings_no_call Dispatch s l k) as [Hc Hu].
      exists (replicate k warn_emit). split; [done|].
      split; [rewrite Hc; lia|]. split; [done|]. by intros Hor.
Qed.
End OneEmission.

(** ** What the operations leave alone *)

Lemma foldl_off_fields {A} (f : A → string) (g : A → nat) (xs : list A) w :
  let w' := foldl (λ w x, off_world (f x) (g x) w) w xs in
  emit_slot w' = emit_slot w ∧ emitter_on_slot w' = emitter_on_slot w ∧
  lastArgs w' = lastArgs w ∧ trace w' = trace w.
Proof.
  revert w. induction xs as [|x xs IH]; intros w; [done|]. simpl.
  destruct (IH (off_world (f x) (g x) w)) as (-> & -> & -> & ->). done.
Qed.

Section Frame.
Context (body : Listener → Args → option Value).
Context (options : SignalControllerOptions).

(** No operation restores a method that [destroy] replaced, and none
    creates or drops the map [#lastArgs]. *)
Lemma exec_frame op w :
  let w' := after (SignalController.exec body options op) w in
  (emit_slot w = Replaced → emit_slot w' = Replaced) ∧
  (emitter_on_slot w = Replaced → emitter_on_slot w' = Replaced) ∧
  (is_Some (lastArgs w') ↔ is_Some (lastArgs w)).
Proof.
  destruct op as [s o l|s l|s args|s| | |a|f]; cbv zeta.
  - unfold after. simpl. rewrite call_on_run.
    destruct (emitter_on_slot w) eqn:Hon; simpl; [|done].
    unfold on_world.
    destruct (registered_fields s o l w) as (_ & _ & Hl & _ & Hon' & Hemit).
    destruct (lastArgs w ≫= _); simpl; rewrite ?Hl, ?Hon', ?Hemit, ?Hon; done.
  - unfold after. simpl. by rewrite off_run.
  - rewrite after_exec_Emit. unfold after. rewrite call_emit_run.
    destruct (emit_slot w) eqn:Hemit; simpl; [|done].
    rewrite emit_run. destruct (listeners w !! s) as [ls|]; simpl.
    + destruct (loop_fields s args ls (record_last s args w))
        as (-> & -> & -> & _). simpl. rewrite Hemit.
      split; [done|]. split; [done|]. by rewrite fmap_is_Some.
    + rewrite Hemit. split; [done|]. split; [done|]. by rewrite fmap_is_Some.
  - unfold after. simpl. unfold SignalController.off. rewrite CLEAR_SIGNAL_run. simpl.
    pose proof (foldl_off_fields (λ _, s) (λ l, l) (listeners_of (listeners w) s) w)
      as Hf. cbv beta zeta in Hf. by destruct Hf as (-> & -> & -> & _).
  - done.
  - done.
  - unfold after. simpl. rewrite abort_run. destruct (bool_decide _); simpl; [done|].
    match goal with
    | |- context [foldl _ ?w0 ?xs] =>
        pose proof (foldl_off_fields (λ h : nat * (string * nat), h.2.1)
                      (λ h, h.2.2) xs w0) as Hf
    end. cbv beta zeta in Hf. by destruct Hf as (-> & -> & -> & _).
  - done.
Qed.

Lemma run_frame ops w :
  let w' := SignalController.run body options ops w in
  (emit_slot w = Replaced → emit_slot w' = Replaced) ∧
  (emitter_on_slot w = Replaced → emitter_on_slot w' = Replaced) ∧
  (is_Some (lastArgs w') ↔ is_Some (lastArgs w)).
Proof.
  revert w. induction ops as [|op ops IH]; intros w; [done|].
  cbv zeta. rewrite run_cons.
  destruct (IH (after (SignalController.exec body options op) w)) as (H1 & H2 & H3).
  destruct (exec_frame op w) as (H4 & H5 & H6).
  split; [tauto|]. split; [tauto|]. by rewrite H3.
Qed.

(** Immediate mode is the presence of the map [#lastArgs]. *)
Lemma reachable_immediate w :
  SignalController.reachable body options w →
  is_Some (lastArgs w) ↔ immediate options = true.
Proof.
  intros [ops ->]. destruct (run_frame ops (SignalController.constructor options))
    as (_ & _ & ->).
  unfold SignalController.constructor, SignalEmitter.constructor.
  destruct (immediate options); simpl.
  - split; [done|]. by eexists.
  - split; [|done]. by intros [? ?].
Qed.
End Frame.

(** * The claims of the specification *)

Lemma filter_ext_elem {A} (P Q : A → Prop) `{∀ x, Decision (P x)} `{∀ x, Decision (Q x)}
    (xs : list A) :
  (∀ x, x ∈ xs → P x ↔ Q x) → filter P xs = filter Q xs.
Proof.
  induction xs as [|y xs IH]; intros HPQ; [done|].
  rewrite !filter_cons, IH by (intros x Hx; apply HPQ; by right).
  destruct (decide (P y)) as [HP|HP], (decide (Q y)) as [HQ|HQ]; try done;
    exfalso; apply (HPQ y) in HP || apply (HPQ y) in HQ; done || left.
Qed.

Lemma thrown_omap body args ls :
  flat_map (thrown body args) ls = omap (λ l, body l args) ls.
Proof.
  induction ls as [|l ls IH]; [done|]. simpl. rewrite IH. unfold thrown.
  by destruct (body l args).
Qed.

Import SignalController.

(** ** C1: [clear()] *)

(** C1. The claim: [clear()] removes every listener of every registered
    signal, so a later emission of a previously subscribed signal returns
    false.  The code does not: [CLEAR_ALL_SIGNALS] walks
    [Object.keys(this.#listeners)], and a [Map] has no own enumerable
    property.  After [on('ping', L); clear()] the listener [L] is still
    registered, and [emit('ping')] calls it and returns true. *)
Theorem clear_keeps_listeners :
  let body : nat → list Z → option Z := λ _ _, None in
  let options := {| immediate := false; onError := None |} in
  let w := run body options [On "ping" None 1; Clear] (constructor options) in
  listeners w !! "ping" = Some [1] ∧
  (call_emit body options "ping" [] w).1 = Normal true ∧
  map call_view (trace (after (call_emit body options "ping" []) w)) =
    [Some (Dispatch, "ping", 1, [])].
Proof. vm_compute. done. Qed.

(** In every world [clear()] returns and changes nothing. *)
Lemma clear_changes_nothing w : clear w = (Normal tt, w).
Proof. apply clear_run. Qed.

(** ** C2: [destroy()] *)

(** C2. The claim: after [destroy()], [emit] returns false and calls no
    listener, [on] adds no listener, and, [destroy] having cleared the
    registry, a direct dispatch finds no listener.  The first two hold
    (lemmas [emit_after_destroy] and [on_after_destroy] below); the third
    does not, for the reason of C1: after [on('ping', L); destroy()] the
    listener [L] is still in [#listeners], and a direct [EMIT] of 'ping'
    calls it and reports the signal handled. *)
Theorem destroy_keeps_listeners :
  let body : nat → list Z → option Z := λ _ _, None in
  let options := {| immediate := false; onError := None |} in
  let w := run body options [On "ping" None 1; Destroy] (constructor options) in
  listeners w !! "ping" = Some [1] ∧
  (SignalEmitter.EMIT body "ping" [] w).1 = Normal (true, []) ∧
  map call_view (trace (after (SignalEmitter.EMIT body "ping" []) w)) =
    [Some (Dispatch, "ping", 1, [])].
Proof. vm_compute. done. Qed.

(** The two parts of C2 that the code has.  Whatever a client does after
    [destroy()], [emit] returns false and only warns, and [on] only warns:
    no listener is called, none is added. *)
Lemma emit_after_destroy body options ops w s args :
  let w' := run body options ops (after destroy w) in
  call_emit body options s args w' = (Normal false, add_events [warn_emit] w').
Proof.
  cbv zeta. destruct (run_frame body options ops (after destroy w)) as (Hemit & _).
  rewrite call_emit_run, Hemit; done.
Qed.

Lemma on_after_destroy body options ops w s o l :
  let w' := run body options ops (after destroy w) in
  ∃ warning,
    SignalEmitter.call_on body s o l w' = (Normal tt, add_events [ConsoleWarn warning] w').
Proof.
  cbv zeta. destruct (run_frame body options ops (after destroy w)) as (_ & Hon & _).
  rewrite call_on_run, Hon; [|done]. by eexists.
Qed.

(** ** C3: error reporting in [emit] *)

(** C3. The claim: [emit] hands every failure of the dispatch to [onError],
    which is the callback given at construction or else the default logger.
    The constructor does store that default in the field [onError], but
    [emit] reads [this.options.onError], which is undefined when no callback
    was given: the failure is dropped, nothing is logged.  Here the
    controller is built without options, listener 1 throws 99, and
    [emit('x', 7)] leaves one event in the trace, the call of the listener. *)
Theorem default_onError_not_called :
  let body : nat → list Z → option Z :=
    λ l _, if decide (l = 1) then Some 99%Z else None in
  let options := {| immediate := false; onError := None |} in
  let w := run body options [On "x" None 1] (constructor options) in
  onError_field w = console_error_fn ∧
  (SignalEmitter.EMIT body "x" [7%Z] w).1 = Normal (true, [99%Z]) ∧
  (call_emit body options "x" [7%Z] w).1 = Normal true ∧
  trace (after (call_emit body options "x" [7%Z]) w) =
    [Called Dispatch "x" 1 [7%Z] {[ "x" := [1] ]}].
Proof. vm_compute. done. Qed.

(** The field [onError] is public, and the usage notes of the package assign
    it after construction.  [emit] does not read the field: the callback
    assigned that way is not called either. *)
Example assigned_onError_not_called :
  let body : nat → list Z → option Z :=
    λ l _, if decide (l = 1) then Some 99%Z else None in
  let options := {| immediate := false; onError := None |} in
  let w := run body options [On "x" None 1; SetOnError (λ _ _ _, None)]
             (constructor options) in
  omap call_view (trace (after (call_emit body options "x" [7%Z]) w)) =
    [(Dispatch, "x", 1, [7%Z])] ∧
  length (trace (after (call_emit body options "x" [7%Z]) w)) = 1.
Proof. vm_compute. done. Qed.

(** When a callback was given at construction, [emit] does hand it every
    failure of the dispatch, in order, with the signal name and the
    arguments; what the callback throws goes to the console; [emit]
    returns. *)
Lemma emit_reports_to_supplied_callback body options f s args ls w :
  onError options = Some f →
  listeners w !! s = Some ls →
  ∃ w', emit body options s args w = (Normal true, w') ∧
    trace w' = trace w ++ dispatch_events s args (record_last s args w) ls ++
      flat_map (λ error,
        OnErrorCalled error s args ::
        match f error s args with
        | Some e => [ConsoleError [DValue error; DName s; DArgs args];
                     ConsoleError [DValue e]]
        | None => []
        end) (omap (λ l, body l args) ls).
Proof.
  intros Hf Hls. rewrite emit_run, Hls. eexists. split; [reflexivity|].
  unfold add_events. simpl. rewrite loop_trace, <- app_assoc, thrown_omap.
  unfold report. by rewrite Hf.
Qed.

(** ** C4: the dispatch of [EMIT] *)

(** C4. [EMIT(signalName, args)] never throws.  Without an entry for the
    signal it returns [(false, [])].  With the listener set [ls] it returns
    [(true, failures)] where [failures] are the values thrown by the
    listeners of [ls], in insertion order; it calls every listener of [ls]
    once, in insertion order, with [args], whatever the earlier ones threw;
    a listener carrying the fire-once flag is out of the set when it is
    called; afterwards the set holds the listeners that did not carry the
    flag. *)
Theorem EMIT_dispatch body s args w :
  match listeners w !! s with
  | None =>
      SignalEmitter.EMIT body s args w = (Normal (false, []), record_last s args w)
  | Some ls =>
      ∃ w' evs,
        SignalEmitter.EMIT body s args w =
          (Normal (true, omap (λ l, body l args) ls), w') ∧
        trace w' = trace w ++ evs ∧
        map call_view evs = map (λ l, Some (Dispatch, s, l, args)) ls ∧
        Forall2 (λ l ev, ∃ seen, ev = Called Dispatch s l args seen ∧
                   (l ∈ ONCE_SYMBOL w → l ∉ listeners_of seen s)) ls evs ∧
        listeners_of (listeners w') s = filter (λ l, l ∉ ONCE_SYMBOL w) ls
  end.
Proof.
  rewrite EMIT_run. destruct (listeners w !! s) as [ls|] eqn:Hls; [|done].
  set (w0 := record_last s args w).
  exists (foldl (visit s args) w0 ls), (dispatch_events s args w0 ls).
  split; [by rewrite thrown_omap|].
  split; [by rewrite loop_trace|].
  split; [apply dispatch_events_view|].
  split.
  - eapply Forall2_impl; [apply dispatch_events_seen|].
    intros l ev (seen & -> & Himp). exists seen. split; [done|].
    intros Ho. apply Himp. by left.
  - rewrite loop_listeners_of. unfold listeners_of at 1. subst w0. simpl.
    rewrite Hls. simpl. apply filter_ext_elem. intros x Hx. tauto.
Qed.

(** In a world a client can reach, an entry of [#listeners] is never empty:
    [EMIT] reports the signal handled exactly when it has a listener. *)
Lemma EMIT_handled_iff_listener body options w s args :
  reachable body options w →
  ∃ errors,
    (SignalEmitter.EMIT body s args w).1 =
      Normal (bool_decide (listeners_of (listeners w) s ≠ []), errors).
Proof.
  intros Hwf%reachable_wf. rewrite EMIT_run.
  pose proof (lookup_listeners_of (listeners w) s Hwf) as Hiff.
  destruct (listeners w !! s) as [ls|] eqn:Hls; simpl.
  - eexists. rewrite bool_decide_eq_true_2; [done|].
    intros Hnil. apply Hiff in Hnil. done.
  - eexists. rewrite bool_decide_eq_false_2; [done|].
    intros Hne. apply Hne, Hiff. done.
Qed.

(** ** C5: immediate mode *)

(** C5. On a controller built with [immediate: true]: an emission records
    its arguments as the last ones of the signal, over whatever was recorded
    and whether or not the signal has listeners; and a subscription to a
    signal with recorded arguments calls the new listener with them, once,
    inside the call of [on], and does nothing else observable. *)
Theorem immediate_mode_records_and_replays body options w :
  reachable body options w →
  immediate options = true →
  (emit_slot w = Original →
   ∀ s args,
     lastArgs (after (call_emit body options s args) w) ≫= (λ m, m !! s) = Some args) ∧
  (emitter_on_slot w = Original →
   ∀ s last o l,
     lastArgs w ≫= (λ m, m !! s) = Some last →
     trace (after (SignalEmitter.call_on body s o l) w) =
       trace w ++ [Called Replay s l last
                     (listeners (after (SignalEmitter.call_on body s o l) w))]).
Proof.
  intros Hreach Himm. apply (reachable_immediate body options w Hreach) in Himm.
  destruct Himm as [m Hm]. split.
  - intros Hslot s args. rewrite emit_world by done. unfold add_events. simpl.
    destruct (loop_fields s args (listeners_of (listeners w) s) (record_last s args w))
      as (-> & _).
    simpl. rewrite Hm. simpl. apply lookup_insert_eq.
  - intros Hslot s last o l Hlast. unfold after. rewrite call_on_run, Hslot. simpl.
    unfold on_world. rewrite Hlast. simpl.
    by destruct (registered_fields s o l w) as (_ & _ & _ & -> & _).
Qed.

(** ** C6: fire-once listeners *)

Lemma call_on_subscribed body options w s o l :
  reachable body options w →
  emitter_on_slot w = Original →
  let w1 := after (SignalEmitter.call_on body s o l) w in
  wf (listeners w1) ∧
  l ∈ listeners_of (listeners w1) s ∧
  ONCE_SYMBOL w1 =
    (if from_option once false o then {[l]} ∪ ONCE_SYMBOL w else ONCE_SYMBOL w) ∧
  (∀ s', s' ≠ s → listeners w1 !! s' = listeners w !! s') ∧
  emit_slot w1 = emit_slot w ∧ emitter_on_slot w1 = Original.
Proof.
  intros Hreach Hslot w1.
  assert (wf (listeners w1)) as Hwf.
  { apply (exec_wf body options (On s o l)). by apply (reachable_wf body options). }
  split; [done|]. subst w1. unfold after in *. rewrite call_on_run, Hslot in *.
  simpl in *. rewrite on_world_listeners in *.
  destruct (registered_fields s o l w) as (Hl & Ho & _ & _ & Hon & Hemit).
  unfold on_world. rewrite Hl.
  split; [unfold listeners_of; rewrite lookup_insert_eq; simpl;
          apply elem_of_Set_add; by left|].
  split; [by destruct (lastArgs w ≫= _)|].
  split; [intros s' Hne; by rewrite lookup_insert_ne|].
  destruct (lastArgs w ≫= _); simpl; by rewrite Hon, Hemit.
Qed.

(** The case in which the fire-once option does what it says: when the
    emissions of the signal follow the subscription directly, the listener
    is called at most once by the dispatch, every such call finds it
    already out of the listener set of the signal, and, on a controller
    that was not destroyed, one emission is enough for it to have been
    called once and to be out of the set. *)
Theorem once_listener_dispatched_at_most_once body options w s a l emissions :
  reachable body options w →
  emitter_on_slot w = Original →
  let w1 := after (SignalEmitter.call_on body s (Some {| once := true; signal := a |}) l) w in
  let w2 := run body options (map (Emit s) emissions) w1 in
  ∃ evs, trace w2 = trace w1 ++ evs ∧
    calls Dispatch s l evs ≤ 1 ∧
    Forall (unseen s l) evs ∧
    (emit_slot w = Original → emissions ≠ [] →
     calls Dispatch s l evs = 1 ∧ l ∉ listeners_of (listeners w2) s).
Proof.
  intros Hreach Hslot w1 w2.
  destruct (call_on_subscribed body options w s
              (Some {| once := true; signal := a |}) l Hreach Hslot)
    as (Hwf & Hl & Ho & _ & Hemit & _).
  fold w1 in Hwf, Hl, Ho, Hemit. simpl in Ho.
  destruct (emissions_once body options s l emissions w1 Hwf Hl)
    as (evs & Ht & Hc & Hu & Hfirst); [rewrite Ho; set_solver|].
  exists evs. rewrite <- Hemit. done.
Qed.

(** C6. The claim: a listener subscribed to a signal with [once: true] is
    called at most once by the dispatch, over any number of emissions of the
    signal, and is out of the registry after its first call; the option is
    documented so ("this listener will only be called once").  The code does
    not keep it.  The flag is a property of the function object, [off]
    deletes it before looking at the registry, and [EMIT] calls [off] for
    any listener that carries it.  After [on('a', {once: true}, L)], an
    [off('b', L)] for a signal [L] never listened to, or one emission of
    another signal [L] listens to, leaves [L] in the set of 'a' without its
    flag: two emissions of 'a' then call [L] twice, and [L] stays
    subscribed. *)
Theorem once_listener_dispatched_again :
  let body : nat → list Z → option Z := λ _ _, None in
  let options := {| immediate := false; onError := None |} in
  let once_only := Some {| once := true; signal := None |} in
  let w1 := run body options
              [On "a" once_only 1; Off "b" 1; Emit "a" [1%Z]; Emit "a" [2%Z]]
              (constructor options) in
  let w2 := run body options
              [On "a" once_only 1; On "b" None 1; Emit "b" [0%Z];
               Emit "a" [1%Z]; Emit "a" [2%Z]]
              (constructor options) in
  calls Dispatch "a" 1 (trace w1) = 2 ∧
  omap call_view (trace w1) =
    [(Dispatch, "a", 1, [1%Z]); (Dispatch, "a", 1, [2%Z])] ∧
  listeners w1 !! "a" = Some [1] ∧
  calls Dispatch "a" 1 (trace w2) = 2 ∧
  omap call_view (trace w2) =
    [(Dispatch, "b", 1, [0%Z]); (Dispatch, "a", 1, [1%Z]); (Dispatch, "a", 1, [2%Z])] ∧
  listeners w2 !! "a" = Some [1].
Proof. vm_compute. done. Qed.

(** ** C7: [off] and the shape of the registry *)

(** C7. In every world a client can reach, no signal maps to an empty
    listener set.  There [off(s, l)] returns without throwing; it takes [l],
    and only [l], out of the set of [s] and leaves the other signals alone;
    it clears the fire-once flag of [l]; when [l] is not in the set of [s]
    the registry is unchanged; and the registry it leaves has no empty set
    either. *)
Theorem off_removes_by_identity body options ops s l :
  let w := run body options ops (constructor options) in
  (∀ s', listeners w !! s' ≠ Some []) ∧
  ∃ w', SignalEmitter.off s l w = (Normal tt, w') ∧
    listeners_of (listeners w') s = filter (λ x, x ≠ l) (listeners_of (listeners w) s) ∧
    (∀ s', s' ≠ s → listeners w' !! s' = listeners w !! s') ∧
    ONCE_SYMBOL w' = ONCE_SYMBOL w ∖ {[l]} ∧
    (l ∉ listeners_of (listeners w) s → listeners w' = listeners w) ∧
    (∀ s', listeners w' !! s' ≠ Some []).
Proof.
  intros w.
  assert (wf (listeners w)) as Hwf by (apply run_wf, constructor_wf).
  split; [intros s' Hs'; by destruct (Hwf s' [] Hs')|].
  exists (off_world s l w). split; [apply off_run|]. simpl.
  split; [apply listeners_of_unregister|].
  split; [intros s' Hne; by apply unregister_ne|].
  split; [done|].
  split; [intros Hl; by apply unregister_absent|].
  intros s' Hs'. by destruct (unregister_wf s l _ Hwf s' [] Hs').
Qed.

(** ** C8: the fire-once flag belongs to the function, not to the subscription *)

Lemma reachable_step body options op w :
  reachable body options w → reachable body options (after (exec body options op) w).
Proof.
  intros [ops ->]. exists (ops ++ [op]). unfold run. by rewrite foldl_app.
Qed.

(** A listener that is in the set of [s] without the flag is called by every
    emission of [s] and stays. *)
Lemma emissions_plain body options s l emissions w :
  wf (listeners w) →
  emit_slot w = Original →
  l ∈ listeners_of (listeners w) s →
  l ∉ ONCE_SYMBOL w →
  let w' := run body options (map (Emit s) emissions) w in
  l ∈ listeners_of (listeners w') s ∧
  ∃ evs, trace w' = trace w ++ evs ∧ calls Dispatch s l evs = length emissions.
Proof.
  revert w. induction emissions as [|args emissions IH]; intros w Hwf Hslot Hl Ho.
  - split; [done|]. exists []. by rewrite app_nil_r.
  - cbv zeta. rewrite map_cons, run_cons, after_exec_Emit.
    pose proof (emit_summary body options s args w l Hslot)
      as (Hslot1 & _ & Ho1 & Hls & _ & evs1 & Ht1 & Hc1 & _).
    rewrite filter_eq_NoDup, decide_True in Hc1
      by first [done | by apply listeners_of_NoDup].
    assert (wf (listeners (after (call_emit body options s args) w))) as Hwf1
      by (rewrite <- after_exec_Emit; by apply exec_wf).
    destruct (IH _ Hwf1 Hslot1) as (Hl2 & evs2 & Ht2 & Hc2).
    + rewrite Hls, list_elem_of_filter. tauto.
    + rewrite Ho1. set_solver.
    + split; [done|]. exists (evs1 ++ evs2).
      rewrite Ht2, Ht1, <- app_assoc, calls_app, Hc1, Hc2. done.
Qed.

(** C8. The fire-once flag sits on the listener function.  A listener
    subscribed to [s1] with [once: true] and to another signal [s2] without
    it, in either order, is taken out of the set of [s2] by the first
    emission of [s2] and is called at most once for [s2].  And [off(s, l)]
    clears the flag of [l] in every world, registered to [s] or not: after
    it, a listener subscribed to [s1] with [once: true] stays in the set of
    [s1] and is called by every emission of [s1]. *)
Theorem once_flag_is_shared_between_signals body options w s1 s2 a o2 l emissions :
  reachable body options w →
  emitter_on_slot w = Original →
  emit_slot w = Original →
  s1 ≠ s2 →
  from_option once false o2 = false →
  let o1 := Some {| once := true; signal := a |} in
  (∀ w2,
     w2 = run body options [On s1 o1 l; On s2 o2 l] w ∨
     w2 = run body options [On s2 o2 l; On s1 o1 l] w →
     let w3 := run body options (map (Emit s2) emissions) w2 in
     ∃ evs, trace w3 = trace w2 ++ evs ∧
       calls Dispatch s2 l evs ≤ 1 ∧
       (emissions ≠ [] →
        calls Dispatch s2 l evs = 1 ∧ l ∉ listeners_of (listeners w3) s2)) ∧
  (∀ w0 s, l ∉ ONCE_SYMBOL (after (SignalEmitter.off s l) w0)) ∧
  (let w2 := run body options [On s1 o1 l; Off s2 l] w in
   let w3 := run body options (map (Emit s1) emissions) w2 in
   l ∈ listeners_of (listeners w3) s1 ∧
   ∃ evs, trace w3 = trace w2 ++ evs ∧ calls Dispatch s1 l evs = length emissions).
Proof.
  intros Hreach Hon Hemit Hne Ho2 o1. split; [|split].
  - intros w2 Hw2 w3. subst w3.
    assert (wf (listeners w2) ∧ l ∈ listeners_of (listeners w2) s2 ∧
            l ∈ ONCE_SYMBOL w2 ∧ emit_slot w2 = Original) as (Hwf & Hl & Ho & Hs).
    { destruct Hw2 as [-> | ->]; rewrite !run_cons;
        change (run body options [] ?x) with x.
      - destruct (call_on_subscribed body options w s1 o1 l Hreach Hon)
          as (_ & _ & Ho & _ & Hs1 & Hon1).
        pose proof (reachable_step body options (On s1 o1 l) w Hreach) as Hreach1.
        simpl exec in *.
        destruct (call_on_subscribed body options _ s2 o2 l Hreach1 Hon1)
          as (Hwf' & Hl' & Ho' & _ & Hs' & _).
        split; [done|]. split; [done|]. rewrite Ho2 in Ho'. rewrite Ho', Ho, Hs', Hs1.
        split; [set_solver|done].
      - destruct (call_on_subscribed body options w s2 o2 l Hreach Hon)
          as (_ & Hl & _ & _ & Hs1 & Hon1).
        pose proof (reachable_step body options (On s2 o2 l) w Hreach) as Hreach1.
        simpl exec in *.
        destruct (call_on_subscribed body options _ s1 o1 l Hreach1 Hon1)
          as (Hwf' & _ & Ho' & Hother & Hs' & _).
        split; [done|]. rewrite Ho', Hs', Hs1. simpl.
        split; [|split; [set_solver|done]].
        unfold listeners_of in *. rewrite Hother by done. done. }
    destruct (emissions_once body options s2 l emissions w2 Hwf Hl Ho)
      as (evs & Ht & Hc & _ & Hfirst).
    exists evs. split; [done|]. split; [done|]. intros Hnil. by apply Hfirst.
  - intros w0 s. unfold after. rewrite off_run. simpl. set_solver.
  - intros w2 w3. subst w3 w2. rewrite !run_cons.
    change (run body options [] ?x) with x.
    destruct (call_on_subscribed body options w s1 o1 l Hreach Hon)
      as (Hwf1 & Hl1 & _ & _ & Hs1 & _).
    simpl exec. set (w1 := after (SignalEmitter.call_on body s1 o1 l) w) in *.
    apply emissions_plain.
    + apply (exec_wf body options (Off s2 l)). done.
    + unfold after. simpl. rewrite off_run. simpl. by rewrite Hs1, Hemit.
    + unfold after. simpl. rewrite off_run. simpl.
      rewrite listeners_of_unregister_ne; done.
    + unfold after. simpl. rewrite off_run. simpl. set_solver.
Qed.

(** ** C9: the replay of immediate mode and the fire-once flag *)

(** C9. In immediate mode, subscribing [l] with [once: true] to a signal
    with recorded arguments calls [l] with them inside [on], leaves [l] in
    the set with its flag, and the next emission of the signal calls [l]
    again: two calls. *)
Theorem replay_keeps_once_listener body options w s a l last args :
  reachable body options w →
  emitter_on_slot w = Original →
  emit_slot w = Original →
  lastArgs w ≫= (λ m, m !! s) = Some last →
  let w1 := after (SignalEmitter.call_on body s (Some {| once := true; signal := a |}) l) w in
  let w2 := after (call_emit body options s args) w1 in
  trace w1 = trace w ++ [Called Replay s l last (listeners w1)] ∧
  l ∈ listeners_of (listeners w1) s ∧
  l ∈ ONCE_SYMBOL w1 ∧
  (∃ evs, trace w2 = trace w1 ++ evs ∧
          calls Dispatch s l evs = 1 ∧ calls Replay s l evs = 0) ∧
  calls Replay s l (trace w2) + calls Dispatch s l (trace w2) =
    calls Replay s l (trace w) + calls Dispatch s l (trace w) + 2.
Proof.
  intros Hreach Hon Hemit Hlast w1 w2.
  destruct (call_on_subscribed body options w s
              (Some {| once := true; signal := a |}) l Hreach Hon)
    as (Hwf & Hl & Ho & _ & Hs1 & _).
  fold w1 in Hwf, Hl, Ho, Hs1. simpl in Ho.
  assert (trace w1 = trace w ++ [Called Replay s l last (listeners w1)]) as Ht1.
  { subst w1. unfold after. rewrite call_on_run, Hon. simpl.
    unfold on_world. rewrite Hlast. simpl.
    by destruct (registered_fields s (Some {| once := true; signal := a |}) l w)
      as (_ & _ & _ & -> & _). }
  rewrite Hemit in Hs1.
  pose proof (emit_summary body options s args w1 l Hs1)
    as (_ & _ & _ & _ & _ & evs & Ht2 & Hc & Hr & _).
  fold w2 in Ht2.
  rewrite filter_eq_NoDup, decide_True in Hc
    by first [done | by apply listeners_of_NoDup].
  split; [done|]. split; [done|]. split; [rewrite Ho; set_solver|].
  split; [by exists evs|].
  rewrite Ht2, Ht1, !calls_app, Hc, Hr, !calls_cons, !calls_nil. simpl.
  rewrite !bool_decide_eq_true_2 by done. simpl. lia.
Qed.

(** ** C10: the replay is not guarded *)

(** C10. When the listener throws during the replay of [on], the call of
    [on] throws that value: the listener is registered, the trace gains the
    call of the listener and nothing else, so neither [onError] nor the
    console sees the failure.  A dispatch of the same arguments to the same
    listener returns instead, with the value among its failures. *)
Theorem replay_failure_escapes_on body options w s o l last e :
  emitter_on_slot w = Original →
  lastArgs w ≫= (λ m, m !! s) = Some last →
  body l last = Some e →
  ∃ w', exec body options (On s o l) w = (Throw e, w') ∧
    trace w' = trace w ++ [Called Replay s l last (listeners w')] ∧
    l ∈ listeners_of (listeners w') s ∧
    ∃ errors w'', SignalEmitter.EMIT body s last w' = (Normal (true, errors), w'') ∧
                  e ∈ errors.
Proof.
  intros Hon Hlast Hbody. simpl. rewrite call_on_run, Hon.
  unfold on_completion. rewrite Hlast, Hbody. eexists. split; [reflexivity|].
  unfold on_world. rewrite Hlast. simpl.
  destruct (registered_fields s o l w) as (Hl & _ & _ & Ht & _).
  rewrite Ht, Hl. split; [done|].
  split; [unfold listeners_of; rewrite lookup_insert_eq; simpl;
          apply elem_of_Set_add; by left|].
  rewrite EMIT_run. simpl. rewrite Hl, lookup_insert_eq.
  eexists _, _. split; [reflexivity|].
  apply list_elem_of_In, in_flat_map.
  exists l. split.
  - apply list_elem_of_In, elem_of_Set_add. by left.
  - unfold thrown. rewrite Hbody. by left.
Qed.

(** ** The theorems at work on concrete controllers *)

(** Listener 7 throws 99, the others return. *)
Definition demo_body : Listener → Args → option Value :=
  λ l _, if decide (l = 7) then Some 99%Z else None.

(** A controller in immediate mode on which 'x' was emitted with 42 before
    anyone subscribed. *)
Definition demo_options : SignalControllerOptions :=
  {| immediate := true; onError := None |}.
Definition demo_world : World :=
  run demo_body demo_options [Emit "x" [42%Z]] (constructor demo_options).

Lemma demo_world_reachable : reachable demo_body demo_options demo_world.
Proof. by exists [Emit "x" [42%Z]]. Qed.

Lemma fresh_reachable body options : reachable body options (constructor options).
Proof. by exists []. Qed.

Lemma immediate_mode_records_and_replays_witness :
  reachable demo_body demo_options demo_world ∧
  immediate demo_options = true ∧
  lastArgs (after (call_emit demo_body demo_options "x" [1%Z]) demo_world)
    ≫= (λ m, m !! "x") = Some [1%Z] ∧
  trace (after (SignalEmitter.call_on demo_body "x" None 5) demo_world) =
    trace demo_world ++
      [Called Replay "x" 5 [42%Z]
         (listeners (after (SignalEmitter.call_on demo_body "x" None 5) demo_world))].
Proof.
  split; [apply demo_world_reachable|]. split; [reflexivity|].
  destruct (immediate_mode_records_and_replays demo_body demo_options demo_world
              demo_world_reachable eq_refl) as [Hrecord Hreplay].
  split; [apply Hrecord; reflexivity|apply Hreplay; reflexivity].
Defined.

Lemma once_listener_dispatched_at_most_once_witness :
  reachable demo_body demo_options (constructor demo_options) ∧
  emitter_on_slot (constructor demo_options) = Original ∧
  let w1 := after (SignalEmitter.call_on demo_body "ping"
                     (Some {| once := true; signal := None |}) 1)
                  (constructor demo_options) in
  let w2 := run demo_body demo_options (map (Emit "ping") [[1%Z]; [2%Z]]) w1 in
  ∃ evs, trace w2 = trace w1 ++ evs ∧
    calls Dispatch "ping" 1 evs ≤ 1 ∧
    Forall (unseen "ping" 1) evs ∧
    calls Dispatch "ping" 1 evs = 1 ∧
    1 ∉ listeners_of (listeners w2) "ping".
Proof.
  split; [apply fresh_reachable|]. split; [reflexivity|].
  destruct (once_listener_dispatched_at_most_once demo_body demo_options
              (constructor demo_options) "ping" None 1 [[1%Z]; [2%Z]]
              (fresh_reachable demo_body demo_options) eq_refl)
    as (evs & Ht & Hc & Hu & Hfirst).
  destruct (Hfirst eq_refl) as [Hone Hgone]; [discriminate|].
  exists evs. repeat split; assumption.
Defined.

Lemma once_flag_is_shared_between_signals_witness :
  reachable demo_body demo_options (constructor demo_options) ∧
  emitter_on_slot (constructor demo_options) = Original ∧
  emit_slot (constructor demo_options) = Original ∧
  "a" ≠ "b" ∧
  from_option once false None = false ∧
  let w := constructor demo_options in
  let o1 := Some {| once := true; signal := None |} in
  (let w2 := run demo_body demo_options [On "a" o1 1; On "b" None 1] w in
   let w3 := run demo_body demo_options (map (Emit "b") [[1%Z]; [2%Z]]) w2 in
   ∃ evs, trace w3 = trace w2 ++ evs ∧
     calls Dispatch "b" 1 evs = 1 ∧ 1 ∉ listeners_of (listeners w3) "b") ∧
  (let w2 := run demo_body demo_options [On "b" None 1; On "a" o1 1] w in
   let w3 := run demo_body demo_options (map (Emit "b") [[1%Z]; [2%Z]]) w2 in
   ∃ evs, trace w3 = trace w2 ++ evs ∧
     calls Dispatch "b" 1 evs = 1 ∧ 1 ∉ listeners_of (listeners w3) "b") ∧
  (1 ∉ ONCE_SYMBOL (after (SignalEmitter.off "never" 1)
                     (run demo_body demo_options [On "a" o1 1] w))) ∧
  (let w2 := run demo_body demo_options [On "a" o1 1; Off "b" 1] w in
   let w3 := run demo_body demo_options (map (Emit "a") [[1%Z]; [2%Z]]) w2 in
   1 ∈ listeners_of (listeners w3) "a" ∧
   ∃ evs, trace w3 = trace w2 ++ evs ∧ calls Dispatch "a" 1 evs = 2).
Proof.
  split; [apply fresh_reachable|]. split; [reflexivity|]. split; [reflexivity|].
  split; [discriminate|]. split; [reflexivity|].
  destruct (once_flag_is_shared_between_signals demo_body demo_options
              (constructor demo_options) "a" "b" None None 1 [[1%Z]; [2%Z]]
              (fresh_reachable demo_body demo_options) eq_refl eq_refl)
    as (Horders & Hoff & Hplain); [discriminate|reflexivity|].
  cbv zeta in *. split; [|split; [|split; [apply Hoff|apply Hplain]]].
  - destruct (Horders _ (or_introl eq_refl)) as (evs & Ht & _ & Hfirst).
    destruct Hfirst as [Hone Hgone]; [discriminate|]. by exists evs.
  - destruct (Horders _ (or_intror eq_refl)) as (evs & Ht & _ & Hfirst).
    destruct Hfirst as [Hone Hgone]; [discriminate|]. by exists evs.
Defined.

Lemma replay_keeps_once_listener_witness :
  reachable demo_body demo_options demo_world ∧
  emitter_on_slot demo_world = Original ∧
  emit_slot demo_world = Original ∧
  lastArgs demo_world ≫= (λ m, m !! "x") = Some [42%Z] ∧
  let w1 := after (SignalEmitter.call_on demo_body "x"
                     (Some {| once := true; signal := None |}) 5) demo_world in
  let w2 := after (call_emit demo_body demo_options "x" [43%Z]) w1 in
  trace w1 = trace demo_world ++ [Called Replay "x" 5 [42%Z] (listeners w1)] ∧
  5 ∈ listeners_of (listeners w1) "x" ∧
  5 ∈ ONCE_SYMBOL w1 ∧
  (∃ evs, trace w2 = trace w1 ++ evs ∧
          calls Dispatch "x" 5 evs = 1 ∧ calls Replay "x" 5 evs = 0) ∧
  calls Replay "x" 5 (trace w2) + calls Dispatch "x" 5 (trace w2) =
    calls Replay "x" 5 (trace demo_world) + calls Dispatch "x" 5 (trace demo_world) + 2.
Proof.
  split; [apply demo_world_reachable|]. split; [reflexivity|]. split; [reflexivity|].
  split; [reflexivity|].
  apply (replay_keeps_once_listener demo_body demo_options demo_world
           "x" None 5 [42%Z] [43%Z]).
  - apply demo_world_reachable.
  - reflexivity.
  - reflexivity.
  - reflexivity.
Defined.

Lemma replay_failure_escapes_on_witness :
  emitter_on_slot demo_world = Original ∧
  lastArgs demo_world ≫= (λ m, m !! "x") = Some [42%Z] ∧
  demo_body 7 [42%Z] = Some 99%Z ∧
  ∃ w', exec demo_body demo_options (On "x" None 7) demo_world = (Throw 99%Z, w') ∧
    trace w' = trace demo_world ++ [Called Replay "x" 7 [42%Z] (listeners w')] ∧
    7 ∈ listeners_of (listeners w') "x" ∧
    ∃ errors w'', SignalEmitter.EMIT demo_body "x" [42%Z] w' = (Normal (true, errors), w'') ∧
                  99%Z ∈ errors.
Proof.
  split; [reflexivity|]. split; [reflexivity|]. split; [reflexivity|].
  apply (replay_failure_escapes_on demo_body demo_options demo_world
           "x" None 7 [42%Z] 99%Z); reflexivity.
Defined.

Lemma off_removes_by_identity_witness :
  let w := run demo_body demo_options [On "ping" None 1; On "ping" None 2]
             (constructor demo_options) in
  (3 ∉ listeners_of (listeners w) "ping") ∧
  (∃ w', SignalEmitter.off "ping" 3 w = (Normal tt, w') ∧ listeners w' = listeners w) ∧
  (∃ w', SignalEmitter.off "ping" 1 w = (Normal tt, w') ∧
         listeners_of (listeners w') "ping" = [2]).
Proof.
  cbv zeta. split; [vm_compute; by intros ?%list_elem_of_In; naive_solver|].
  split.
  - destruct (off_removes_by_identity demo_body demo_options
                [On "ping" None 1; On "ping" None 2] "ping" 3)
      as (_ & w' & Hrun & _ & _ & _ & Hsame & _).
    exists w'. split; [exact Hrun|]. apply Hsame.
    vm_compute. intros ?%list_elem_of_In. naive_solver.
  - destruct (off_removes_by_identity demo_body demo_options
                [On "ping" None 1; On "ping" None 2] "ping" 1)
      as (_ & w' & Hrun & Hset & _).
    exists w'. split; [exact Hrun|]. rewrite Hset. reflexivity.
Defined.

(** ** The scenarios of the specification *)

(** Subscribe [L1] and [L2] to 'ping' and emit it with 1: both are called
    once with 1, in order, and [emit] returns true. *)
Example scenario_two_listeners :
  let w := run demo_body demo_options [On "ping" None 1; On "ping" None 2]
             (constructor demo_options) in
  (call_emit demo_body demo_options "ping" [1%Z] w).1 = Normal true ∧
  omap call_view (trace (after (call_emit demo_body demo_options "ping" [1%Z]) w)) =
    [(Dispatch, "ping", 1, [1%Z]); (Dispatch, "ping", 2, [1%Z])].
Proof. vm_compute. done. Qed.

(** Subscribing the same function twice does not call it twice. *)
Example scenario_same_listener_twice :
  let w := run demo_body demo_options [On "ping" None 1; On "ping" None 1]
             (constructor demo_options) in
  listeners w !! "ping" = Some [1].
Proof. vm_compute. done. Qed.

(** Subscribe [L] to 'ping' with [once: true] and emit twice: one call, on
    the first emission, and the second emission is not handled. *)
Example scenario_once :
  let w := run demo_body demo_options
             [On "ping" (Some {| once := true; signal := None |}) 1;
              Emit "ping" [1%Z]]
             (constructor demo_options) in
  omap call_view (trace w) = [(Dispatch, "ping", 1, [1%Z])] ∧
  (call_emit demo_body demo_options "ping" [2%Z] w).1 = Normal false ∧
  omap call_view (trace (after (call_emit demo_body demo_options "ping" [2%Z]) w)) =
    [(Dispatch, "ping", 1, [1%Z])].
Proof. vm_compute. done. Qed.

(** Immediate mode: emit 'x' with 42 without listeners, then subscribe [L]:
    [L] is called with 42 by the subscription. *)
Example scenario_immediate :
  (call_emit demo_body demo_options "x" [42%Z] (constructor demo_options)).1 =
    Normal false ∧
  omap call_view (trace (run demo_body demo_options [On "x" None 1] demo_world)) =
    [(Replay, "x", 1, [42%Z])].
Proof. vm_compute. done. Qed.

(** A listener that throws does not stop the next one, and the value it
    throws reaches the callback given at construction with the signal name
    and the arguments. *)
Example scenario_failure_reported :
  let options := {| immediate := false; onError := Some (λ _ _ _, None) |} in
  let w := run demo_body options [On "ping" None 7; On "ping" None 2]
             (constructor options) in
  (call_emit demo_body options "ping" [1%Z] w).1 = Normal true ∧
  map (λ e, match e with
            | Called _ _ l _ _ => inl l
            | OnErrorCalled error s args => inr (Some (error, s, args))
            | _ => inr None
            end)
      (trace (after (call_emit demo_body options "ping" [1%Z]) w)) =
    [inl 7; inl 2; inr (Some (99%Z, "ping", [1%Z]))].
Proof. vm_compute. done. Qed.

(** Aborting the signal given to [on] removes the listener. *)
Example scenario_abort :
  let w := run demo_body demo_options
             [On "ping" (Some {| once := false; signal := Some 0 |}) 1; Abort 0]
             (constructor demo_options) in
  listeners w !! "ping" = None.
Proof. vm_compute. done. Qed.


(** * Further properties of the emitter and the controller *)

#[global] Instance Method_eq_dec : EqDecision Method.
Proof. solve_decision. Defined.

(** The arguments [l] received through [via] for signal [s], in order. *)
Definition deliveries (via : Via) (s : Signal) (l : Listener) (t : list Event)
    : list Args :=
  omap (λ e, match e with
             | Called via' s' l' args _ =>
                 if is_call via s l e then Some args else None
             | _ => None
             end) t.

Lemma deliveries_app via s l t1 t2 :
  deliveries via s l (t1 ++ t2) = deliveries via s l t1 ++ deliveries via s l t2.
Proof. unfold deliveries. by rewrite omap_app. Qed.

Lemma deliveries_dispatch_events s args w ls l :
  deliveries Dispatch s l (dispatch_events s args w ls) =
    replicate (length (filter (λ x, x = l) ls)) args.
Proof.
  revert w. induction ls as [|x ls IH]; intros w; [done|].
  simpl. unfold deliveries in *. simpl. rewrite IH, filter_cons.
  rewrite !bool_decide_eq_true_2 by done. simpl.
  case_decide; [by rewrite bool_decide_eq_true_2|by rewrite bool_decide_eq_false_2].
Qed.

Lemma deliveries_report options via s' l s args errors :
  deliveries via s' l (flat_map (report options s args) errors) = [].
Proof.
  induction errors as [|error errors IH]; [done|]. simpl.
  rewrite deliveries_app, IH, app_nil_r. unfold report.
  destruct (onError options) as [f|]; [|done].
  by destruct (f error s args).
Qed.

(** ** A run of [off] calls *)

Lemma foldl_off_listeners_of {A} (f : A → string) (g : A → nat) (xs : list A) w s :
  listeners_of (listeners (foldl (λ w x, off_world (f x) (g x) w) w xs)) s =
    filter (λ l, (s, l) ∉ map (λ x, (f x, g x)) xs) (listeners_of (listeners w) s).
Proof.
  revert w. induction xs as [|x xs IH]; intros w; simpl.
  - symmetry. apply filter_all. intros l _. apply not_elem_of_nil.
  - rewrite IH. simpl. destruct (decide (f x = s)) as [<-|Hne].
    + rewrite listeners_of_unregister. unfold Set_delete. rewrite list_filter_filter.
      apply list_filter_iff. intros l. rewrite not_elem_of_cons. split.
      * intros [H1 H2]. split; [congruence|done].
      * intros [H1 H2]. split; [done|congruence].
    + rewrite listeners_of_unregister_ne by done.
      apply list_filter_iff. intros l. rewrite not_elem_of_cons. split.
      * intros H. split; [congruence|done].
      * by intros [_ H].
Qed.

Lemma foldl_off_ONCE {A} (f : A → string) (g : A → nat) (xs : list A) w :
  ONCE_SYMBOL (foldl (λ w x, off_world (f x) (g x) w) w xs) =
    ONCE_SYMBOL w ∖ list_to_set (map g xs).
Proof.
  revert w. induction xs as [|x xs IH]; intros w; simpl; [set_solver|].
  rewrite IH. simpl. set_solver.
Qed.

Lemma foldl_off_lookup_ne {A} (f : A → string) (g : A → nat) (xs : list A) w s :
  (∀ x, x ∈ xs → f x ≠ s) →
  listeners (foldl (λ w x, off_world (f x) (g x) w) w xs) !! s = listeners w !! s.
Proof.
  revert w. induction xs as [|x xs IH]; intros w Hne; [done|]. simpl.
  rewrite IH by (intros y Hy; apply Hne; by right). simpl.
  apply unregister_ne. symmetry. intros Heq. by apply (Hne x); [left|].
Qed.

(** ** [SignalController.off] *)

Lemma filter_none {A} (P : A → Prop) `{∀ x, Decision (P x)} (xs : list A) :
  (∀ x, x ∈ xs → ¬ P x) → filter P xs = [].
Proof.
  induction xs as [|y xs IH]; intros HP; [done|].
  rewrite filter_cons_False by (apply HP; left).
  apply IH. intros x Hx. apply HP. by right.
Qed.

(** What [controller.off(s)] leaves. *)
Lemma CLEAR_SIGNAL_world s w :
  wf (listeners w) →
  let w' := foldl (λ w l, off_world s l w) w (listeners_of (listeners w) s) in
  listeners w' = delete s (listeners w) ∧
  ONCE_SYMBOL w' = ONCE_SYMBOL w ∖ list_to_set (listeners_of (listeners w) s) ∧
  trace w' = trace w ∧ lastArgs w' = lastArgs w ∧
  emit_slot w' = emit_slot w ∧ emitter_on_slot w' = emitter_on_slot w.
Proof.
  intros Hwf w'. set (ls := listeners_of (listeners w) s) in *.
  pose proof (foldl_off_fields (λ _, s) (λ l, l) ls w) as Hf.
  pose proof (foldl_off_ONCE (λ _ : nat, s) (λ l, l) ls w) as Ho.
  pose proof (foldl_off_wf (λ _ : nat, s) (λ l, l) ls w Hwf) as Hwf'.
  pose proof (foldl_off_listeners_of (λ _ : nat, s) (λ l, l) ls w s) as Hs.
  pose proof (foldl_off_lookup_ne (λ _ : nat, s) (λ l, l) ls w) as Hother.
  cbv beta zeta in Hf, Ho, Hwf', Hs, Hother. fold w' in Hf, Ho, Hwf', Hs, Hother.
  destruct Hf as (Hemit & Hon & Hlast & Htrace).
  rewrite map_id in Ho.
  split; [|by repeat split].
  apply map_eq. intros s'. destruct (decide (s' = s)) as [->|Hne].
  - rewrite lookup_delete_eq. apply (lookup_listeners_of _ _ Hwf').
    rewrite Hs. fold ls. apply filter_none. intros l Hl Hnot. apply Hnot.
    apply list_elem_of_In, in_map_iff. exists l. split; [done|].
    by apply list_elem_of_In.
  - rewrite lookup_delete_ne by done. apply Hother. intros _ _. congruence.
Qed.

(** X1. [controller.off(s)] never throws and removes every listener of [s]:
    the entry of [s] is gone, the other signals are untouched, nothing is
    called; every listener it removed has lost its fire-once flag; after it
    a dispatch of [s] finds no listener and [emit(s)] returns false. *)
Theorem controller_off_removes_every_listener body options ops s args :
  let w := run body options ops (constructor options) in
  ∃ w', SignalController.off s w = (Normal tt, w') ∧
    listeners w' = delete s (listeners w) ∧
    ONCE_SYMBOL w' = ONCE_SYMBOL w ∖ list_to_set (listeners_of (listeners w) s) ∧
    trace w' = trace w ∧
    SignalEmitter.EMIT body s args w' = (Normal (false, []), record_last s args w') ∧
    (call_emit body options s args w').1 = Normal false.
Proof.
  intros w.
  assert (wf (listeners w)) as Hwf by (apply run_wf, constructor_wf).
  destruct (CLEAR_SIGNAL_world s w Hwf) as (Hl & Ho & Ht & _).
  eexists. split; [unfold SignalController.off; apply CLEAR_SIGNAL_run|].
  split; [done|]. split; [done|]. split; [done|].
  split.
  - rewrite EMIT_run, Hl, lookup_delete_eq. done.
  - rewrite call_emit_run. destruct (emit_slot _); [|done].
    rewrite emit_run, Hl, lookup_delete_eq. done.
Qed.

(** X2. [emit] never throws, whatever the listeners and the error callback
    do, and its result says whether the controller is still active and the
    signal had a listener when it was emitted. *)
Theorem emit_returns_whether_a_listener_exists body options ops s args :
  let w := run body options ops (constructor options) in
  (call_emit body options s args w).1 =
    Normal (bool_decide (emit_slot w = Original) &&
            bool_decide (listeners_of (listeners w) s ≠ [])).
Proof.
  intros w.
  assert (wf (listeners w)) as Hwf by (apply run_wf, constructor_wf).
  pose proof (lookup_listeners_of (listeners w) s Hwf) as Hiff.
  rewrite call_emit_run. destruct (emit_slot w); [|done].
  rewrite emit_run. simpl.
  destruct (listeners w !! s) as [ls|] eqn:Hls; simpl.
  - rewrite bool_decide_eq_true_2; [done|]. intros Hnil. by apply Hiff in Hnil.
  - rewrite bool_decide_eq_false_2; [done|]. intros Hne. by apply Hne, Hiff.
Qed.

(** X3. With a callback given at construction, an emission first runs all
    the listeners of the signal, then hands the callback each value thrown,
    in the order of the listeners, with the signal name and the emitted
    arguments.  When the callback throws, the failure and what the callback
    threw go to the console in two lines, and the remaining failures are
    still handed over. *)
Theorem emit_reports_failures_in_order body options f s args w :
  onError options = Some f →
  emit_slot w = Original →
  ∃ calls_made,
    trace (after (call_emit body options s args) w) =
      trace w ++ calls_made ++
      flat_map (λ error,
        OnErrorCalled error s args ::
        match f error s args with
        | Some e => [ConsoleError [DValue error; DName s; DArgs args];
                     ConsoleError [DValue e]]
        | None => []
        end) (omap (λ l, body l args) (listeners_of (listeners w) s)) ∧
    map call_view calls_made =
      map (λ l, Some (Dispatch, s, l, args)) (listeners_of (listeners w) s).
Proof.
  intros Hf Hslot. rewrite emit_world by done. unfold add_events. simpl.
  exists (dispatch_events s args (record_last s args w) (listeners_of (listeners w) s)).
  split; [|apply dispatch_events_view].
  rewrite loop_trace, <- app_assoc, thrown_omap. unfold report. by rewrite Hf.
Qed.

Lemma emit_reports_failures_in_order_witness :
  let options := {| immediate := false; onError := Some (λ e _ _, Some (e + 1)%Z) |} in
  let w := run demo_body options [On "ping" None 7; On "ping" None 2]
             (constructor options) in
  onError options = Some (λ e _ _, Some (e + 1)%Z) ∧
  emit_slot w = Original ∧
  ∃ calls_made,
    trace (after (call_emit demo_body options "ping" [1%Z]) w) =
      trace w ++ calls_made ++
        [OnErrorCalled 99%Z "ping" [1%Z];
         ConsoleError [DValue 99%Z; DName "ping"; DArgs [1%Z]];
         ConsoleError [DValue 100%Z]] ∧
    map call_view calls_made =
      [Some (Dispatch, "ping", 7, [1%Z]); Some (Dispatch, "ping", 2, [1%Z])].
Proof.
  cbv zeta. split; [reflexivity|]. split; [reflexivity|].
  apply (emit_reports_failures_in_order demo_body
           {| immediate := false; onError := Some (λ e _ _, Some (e + 1)%Z) |}
           (λ e _ _, Some (e + 1)%Z) "ping" [1%Z]); reflexivity.
Defined.

(** ** Every operation as a function on worlds *)

Definition warn_on : Event :=
  ConsoleWarn
    "Ignoring subscription of new listener to a SignalEmitter whose controller has been destroyed.".

Section Worlds.
Context (body : Listener → Args → option Value).
Context (options : SignalControllerOptions).

Definition exec_world (op : Op) (w : World) : World :=
  match op with
  | On s o l =>
      match emitter_on_slot w with
      | Original => on_world s o l w
      | Replaced => add_events [warn_on] w
      end
  | Off s l => off_world s l w
  | Emit s args =>
      match emit_slot w with
      | Original =>
          add_events
            (flat_map (report options s args)
               (flat_map (thrown body args) (listeners_of (listeners w) s)))
            (foldl (visit s args) (record_last s args w) (listeners_of (listeners w) s))
      | Replaced => add_events [warn_emit] w
      end
  | OffAll s => foldl (λ w l, off_world s l w) w (listeners_of (listeners w) s)
  | Clear => w
  | Destroy => set_emitter_on_slot Replaced (set_emit_slot Replaced w)
  | Abort a =>
      if bool_decide (a ∈ aborted w) then w
      else foldl (λ w (h : nat * (string * nat)), off_world h.2.1 h.2.2 w)
             (set_abort_handlers (filter (λ h, h.1 ≠ a) (abort_handlers w))
                (set_aborted ({[a]} ∪ aborted w) w))
             (filter (λ h, h.1 = a) (abort_handlers w))
  | SetOnError f => set_onError_field (Supplied f) w
  end.

Lemma exec_run op w : after (exec body options op) w = exec_world op w.
Proof.
  destruct op as [s o l|s l|s args|s| | |a|f].
  - unfold after. simpl. rewrite call_on_run. by destruct (emitter_on_slot w).
  - unfold after. simpl. by rewrite off_run.
  - rewrite after_exec_Emit. simpl. destruct (emit_slot w) eqn:Hslot.
    + by apply emit_world.
    + unfold after. by rewrite call_emit_run, Hslot.
  - unfold after. simpl. unfold SignalController.off. by rewrite CLEAR_SIGNAL_run.
  - done.
  - done.
  - unfold after. simpl. rewrite abort_run. by destruct (bool_decide _).
  - done.
Qed.

(** Only the replay of [on] calls a listener outside a dispatch, and it
    needs recorded arguments and an emitter whose [on] was not replaced. *)
Lemma exec_no_replay op w s l :
  lastArgs w = None ∨ emitter_on_slot w = Replaced →
  calls Replay s l (trace (exec_world op w)) = calls Replay s l (trace w).
Proof.
  intros Hw. destruct op as [s' o l'|s' l'|s' args|s'| | |a|f]; simpl; try done.
  - destruct (emitter_on_slot w) eqn:Hon.
    + destruct Hw as [Hw|Hw]; [|done]. unfold on_world. rewrite Hw. simpl.
      by destruct (registered_fields s' o l' w) as (_ & _ & _ & -> & _).
    + unfold add_events. simpl. rewrite calls_app, calls_cons, calls_nil. simpl. lia.
  - destruct (emit_slot w).
    + unfold add_events. simpl. rewrite loop_trace. simpl.
      rewrite !calls_app, calls_report.
      rewrite calls_dispatch_events_other by (left; done). lia.
    + unfold add_events. simpl. rewrite calls_app, calls_cons, calls_nil. simpl. lia.
  - pose proof (foldl_off_fields (λ _, s') (λ l, l) (listeners_of (listeners w) s') w)
      as Hf. cbv beta zeta in Hf. by destruct Hf as (_ & _ & _ & ->).
  - destruct (bool_decide _); [done|].
    match goal with
    | |- context [foldl _ ?w0 ?xs] =>
        pose proof (foldl_off_fields (λ h : nat * (string * nat), h.2.1)
                      (λ h, h.2.2) xs w0) as Hf
    end. cbv beta zeta in Hf. by destruct Hf as (_ & _ & _ & ->).
Qed.

(** A listener enters a set only through [on], on an emitter whose [on]
    was not replaced. *)
Lemma exec_adds_only_by_on op w s l :
  l ∈ listeners_of (listeners (exec_world op w)) s →
  l ∈ listeners_of (listeners w) s ∨
  (emitter_on_slot w = Original ∧ ∃ o, op = On s o l).
Proof.
  destruct op as [s' o l'|s' l'|s' args|s'| | |a|f]; simpl; try (by left).
  - destruct (emitter_on_slot w) eqn:Hon; [|by left].
    rewrite on_world_listeners.
    destruct (registered_fields s' o l' w) as (-> & _).
    unfold listeners_of at 1. destruct (decide (s' = s)) as [->|Hne].
    + rewrite lookup_insert_eq. simpl. rewrite elem_of_Set_add.
      intros [->|Hl]; [right; split; [done|by exists o]|by left].
    + rewrite lookup_insert_ne by done. by left.
  - destruct (decide (s' = s)) as [->|Hne].
    + rewrite listeners_of_unregister, elem_of_Set_delete. intros [Hl _]. by left.
    + rewrite listeners_of_unregister_ne by done. by left.
  - destruct (emit_slot w); [|by left]. unfold add_events. simpl.
    destruct (decide (s' = s)) as [->|Hne].
    + rewrite loop_listeners_of. simpl. rewrite list_elem_of_filter.
      intros [_ Hl]. by left.
    + unfold listeners_of at 1. rewrite loop_lookup_ne by done. by left.
  - pose proof (foldl_off_listeners_of (λ _ : nat, s') (λ l, l)
                  (listeners_of (listeners w) s') w s) as Hs.
    cbv beta in Hs. rewrite Hs, list_elem_of_filter. intros [_ Hl]. by left.
  - destruct (bool_decide _); [by left|].
    match goal with
    | |- context [foldl _ ?w0 ?xs] =>
        pose proof (foldl_off_listeners_of (λ h : nat * (string * nat), h.2.1)
                      (λ h, h.2.2) xs w0 s) as Hs
    end. cbv beta in Hs. rewrite Hs, list_elem_of_filter. intros [_ Hl]. by left.
Qed.
End Worlds.

(** ** After [destroy] *)

(** X4. [destroy] is terminal.  Whatever a client does afterwards, both
    replaced methods stay replaced, and every [emit] returns false: it calls
    no listener, records no arguments, leaves the registry alone and writes
    one warning to the console. *)
Theorem destroy_is_terminal body options w ops s args :
  let w1 := run body options ops (after destroy w) in
  emit_slot w1 = Replaced ∧
  emitter_on_slot w1 = Replaced ∧
  ∃ w2, call_emit body options s args w1 = (Normal false, w2) ∧
    listeners w2 = listeners w1 ∧
    lastArgs w2 = lastArgs w1 ∧
    ONCE_SYMBOL w2 = ONCE_SYMBOL w1 ∧
    trace w2 = trace w1 ++
      [ConsoleWarn "Ignoring signal emitted to a SignalController that has been destroyed."].
Proof.
  intros w1. destruct (run_frame body options ops (after destroy w)) as (Hemit & Hon & _).
  fold w1 in Hemit, Hon. split; [by apply Hemit|]. split; [by apply Hon|].
  eexists. split; [rewrite call_emit_run, Hemit; done|]. done.
Qed.

Lemma run_shrinks_when_destroyed body options ops w :
  emitter_on_slot w = Replaced →
  let w1 := run body options ops w in
  (∀ s l, l ∈ listeners_of (listeners w1) s → l ∈ listeners_of (listeners w) s) ∧
  (∀ s l, calls Replay s l (trace w1) = calls Replay s l (trace w)).
Proof.
  revert w. induction ops as [|op ops IH]; intros w Hon; [done|].
  cbv zeta. rewrite run_cons, exec_run.
  assert (emitter_on_slot (exec_world body options op w) = Replaced) as Hon1.
  { rewrite <- exec_run. by apply exec_frame. }
  destruct (IH _ Hon1) as [Hsub Hrep]. split.
  - intros s l Hl. apply Hsub in Hl.
    apply exec_adds_only_by_on in Hl as [Hl|[Ho _]]; [done|congruence].
  - intros s l. rewrite Hrep. apply exec_no_replay. by right.
Qed.

(** X5. After [destroy] the emitter accepts no listener.  Whatever a client
    does afterwards, every listener set is included in what it was when
    [destroy] returned and no listener is replayed; a call of [on] returns
    without throwing and changes neither the registry, nor a fire-once
    flag, nor the abort handlers: it writes one warning to the console. *)
Theorem destroyed_emitter_accepts_no_listener body options w ops :
  let w0 := after destroy w in
  let w1 := run body options ops w0 in
  (∀ s l, l ∈ listeners_of (listeners w1) s → l ∈ listeners_of (listeners w0) s) ∧
  (∀ s l, calls Replay s l (trace w1) = calls Replay s l (trace w0)) ∧
  ∀ s o l, ∃ w2,
    SignalEmitter.call_on body s o l w1 = (Normal tt, w2) ∧
    listeners w2 = listeners w1 ∧
    ONCE_SYMBOL w2 = ONCE_SYMBOL w1 ∧
    abort_handlers w2 = abort_handlers w1 ∧
    trace w2 = trace w1 ++
      [ConsoleWarn "Ignoring subscription of new listener to a SignalEmitter whose controller has been destroyed."].
Proof.
  intros w0 w1.
  destruct (run_shrinks_when_destroyed body options ops w0 eq_refl) as [Hsub Hrep].
  split; [done|]. split; [done|]. intros s o l.
  destruct (run_frame body options ops w0) as (_ & Hon & _).
  specialize (Hon eq_refl). fold w1 in Hon.
  eexists. split; [rewrite call_on_run, Hon; done|]. done.
Qed.

(** ** Immediate mode off *)

Lemma run_without_lastArgs body options ops w :
  lastArgs w = None →
  let w1 := run body options ops w in
  lastArgs w1 = None ∧
  ∀ s l, calls Replay s l (trace w1) = calls Replay s l (trace w).
Proof.
  revert w. induction ops as [|op ops IH]; intros w Hnone; [done|].
  cbv zeta. rewrite run_cons, exec_run.
  assert (lastArgs (exec_world body options op w) = None) as Hnone1.
  { destruct (exec_frame body options op w) as (_ & _ & Hiff).
    rewrite exec_run in Hiff. rewrite Hnone in Hiff.
    destruct (lastArgs (exec_world body options op w)); [|done].
    exfalso. by apply (is_Some_None (A:=gmap string (list Z))), Hiff. }
  destruct (IH _ Hnone1) as [Hl Hrep]. split; [done|].
  intros s l. rewrite Hrep. apply exec_no_replay. by left.
Qed.

(** X6. A controller built without [immediate: true] never records emitted
    arguments and never replays: no listener is ever called outside a
    dispatch, and every call of [on] returns without throwing. *)
Theorem without_immediate_mode_nothing_is_replayed body options ops :
  immediate options = false →
  let w := run body options ops (constructor options) in
  lastArgs w = None ∧
  (∀ s l, calls Replay s l (trace w) = 0) ∧
  (∀ s o l, (SignalEmitter.call_on body s o l w).1 = Normal tt).
Proof.
  intros Himm w.
  assert (lastArgs (constructor options) = None) as Hnone.
  { unfold constructor, SignalEmitter.constructor. by rewrite Himm. }
  destruct (run_without_lastArgs body options ops _ Hnone) as [Hl Hrep].
  fold w in Hl, Hrep. split; [done|]. split; [intros s l; by rewrite Hrep|].
  intros s o l. rewrite call_on_run. destruct (emitter_on_slot w); [|done].
  simpl. unfold on_completion. by rewrite Hl.
Qed.

Lemma without_immediate_mode_nothing_is_replayed_witness :
  let options := {| immediate := false; onError := None |} in
  let w := run demo_body options
             [Emit "x" [42%Z]; On "x" None 7; Emit "x" [43%Z]; On "x" None 1]
             (constructor options) in
  immediate options = false ∧
  lastArgs w = None ∧
  (∀ s l, calls Replay s l (trace w) = 0) ∧
  (∀ s o l, (SignalEmitter.call_on demo_body s o l w).1 = Normal tt).
Proof.
  cbv zeta. split; [reflexivity|].
  apply (without_immediate_mode_nothing_is_replayed demo_body
           {| immediate := false; onError := None |}
           [Emit "x" [42%Z]; On "x" None 7; Emit "x" [43%Z]; On "x" None 1]).
  reflexivity.
Defined.

(** ** Recorded arguments *)

Lemma exec_lastArgs body options op w s :
  (∀ args, op ≠ Emit s args) →
  lastArgs (exec_world body options op w) ≫= (λ m, m !! s) =
    lastArgs w ≫= (λ m, m !! s).
Proof.
  intros Hop. destruct op as [s' o l'|s' l'|s' args|s'| | |a|f]; simpl; try done.
  - destruct (emitter_on_slot w); [|done]. unfold on_world.
    destruct (registered_fields s' o l' w) as (_ & _ & Hl & _).
    destruct (lastArgs w ≫= (λ m, m !! s')); simpl; by rewrite Hl.
  - destruct (emit_slot w); [|done]. unfold add_events. simpl.
    destruct (loop_fields s' args (listeners_of (listeners w) s') (record_last s' args w))
      as (-> & _). simpl.
    destruct (lastArgs w) as [m|]; simpl; [|done].
    apply lookup_insert_ne. intros ->. by apply (Hop args).
  - pose proof (foldl_off_fields (λ _, s') (λ l, l) (listeners_of (listeners w) s') w)
      as Hf. cbv beta zeta in Hf. by destruct Hf as (_ & _ & -> & _).
  - destruct (bool_decide _); [done|].
    match goal with
    | |- context [foldl _ ?w0 ?xs] =>
        pose proof (foldl_off_fields (λ h : nat * (string * nat), h.2.1)
                      (λ h, h.2.2) xs w0) as Hf
    end. cbv beta zeta in Hf. by destruct Hf as (_ & _ & -> & _).
Qed.

(** X7. The arguments recorded for a signal change only when that signal is
    emitted: subscribing, unsubscribing, emitting other signals,
    [controller.off], [clear], [destroy] and aborts all keep them. *)
Theorem recorded_arguments_change_only_by_emit body options ops w s :
  (∀ args, Emit s args ∉ ops) →
  lastArgs (run body options ops w) ≫= (λ m, m !! s) = lastArgs w ≫= (λ m, m !! s).
Proof.
  revert w. induction ops as [|op ops IH]; intros w Hops; [done|].
  rewrite run_cons, exec_run, IH.
  - apply exec_lastArgs. intros args ->. apply (Hops args). by left.
  - intros args Hin. apply (Hops args). by right.
Qed.

Lemma recorded_arguments_change_only_by_emit_witness :
  let ops := [On "x" None 1; Emit "y" [7%Z]; OffAll "x"; Clear; Abort 3; Destroy;
              Off "x" 1] in
  (∀ args, Emit "x" args ∉ ops) ∧
  lastArgs (run demo_body demo_options ops demo_world) ≫= (λ m, m !! "x") = Some [42%Z].
Proof.
  cbv zeta.
  assert (∀ args, Emit "x" args ∉
            [On "x" None 1; Emit "y" [7%Z]; OffAll "x"; Clear; Abort 3; Destroy;
             Off "x" 1]) as Hops.
  { intros args Hin. apply list_elem_of_In in Hin. simpl in Hin.
    repeat (destruct Hin as [Hin|Hin]; [discriminate Hin|]). exact Hin. }
  split; [exact Hops|].
  rewrite (recorded_arguments_change_only_by_emit demo_body demo_options _ demo_world "x" Hops).
  reflexivity.
Defined.

(** ** Subscription and delivery *)

Lemma call_on_world body s o l w :
  emitter_on_slot w = Original →
  let w1 := after (SignalEmitter.call_on body s o l) w in
  listeners w1 = <[s := Set_add l (listeners_of (listeners w) s)]> (listeners w) ∧
  aborted w1 = aborted w ∧
  abort_handlers w1 =
    abort_handlers w ++ match o ≫= signal with Some a => [(a, (s, l))] | None => [] end.
Proof.
  intros Hon w1. subst w1. unfold after. rewrite call_on_run, Hon. simpl.
  unfold on_world, registered.
  destruct (lastArgs w ≫= _); destruct (o ≫= signal);
    destruct (from_option once false o); simpl; by rewrite ?app_nil_r.
Qed.

Lemma omap_of_map {A B} (f : A → option B) (xs : list A) (ys : list B) :
  map f xs = map Some ys → omap f xs = ys.
Proof.
  revert ys. induction xs as [|x xs IH]; intros [|y ys] Heq; try done.
  injection Heq as Hx Hxs.
  change (omap f (x :: xs))
    with (match f x with Some y => y :: omap f xs | None => omap f xs end).
  rewrite Hx. f_equal. by apply IH.
Qed.

Lemma call_view_report options s args errors :
  omap call_view (flat_map (report options s args) errors) = [].
Proof.
  induction errors as [|error errors IH]; [done|]. simpl.
  rewrite omap_app, IH, app_nil_r. unfold report.
  destruct (onError options) as [f|]; [|done].
  by destruct (f error s args).
Qed.

(** One emission on an active controller: who is called, with what. *)
Lemma emit_delivers body options s args w l :
  emit_slot w = Original →
  wf (listeners w) →
  ∃ evs, trace (after (call_emit body options s args) w) = trace w ++ evs ∧
    omap call_view evs =
      map (λ l, (Dispatch, s, l, args)) (listeners_of (listeners w) s) ∧
    deliveries Dispatch s l evs =
      if decide (l ∈ listeners_of (listeners w) s) then [args] else [].
Proof.
  intros Hslot Hwf. rewrite emit_world by done. unfold add_events. simpl.
  eexists. split; [rewrite loop_trace, <- app_assoc; reflexivity|]. split.
  - rewrite omap_app, call_view_report, app_nil_r. apply omap_of_map.
    rewrite dispatch_events_view, map_map. done.
  - rewrite deliveries_app, deliveries_report, app_nil_r, deliveries_dispatch_events.
    rewrite filter_eq_NoDup by (by apply listeners_of_NoDup).
    by case_decide.
Qed.

(** X8. After [on(s, options, l)], with any options and whether or not [l]
    was already subscribed to [s], the next emission of [s] calls [l]
    exactly once, with the emitted arguments. *)
Theorem subscribe_then_emit_delivers_once body options w s o l args :
  reachable body options w →
  emitter_on_slot w = Original →
  emit_slot w = Original →
  let w1 := after (SignalEmitter.call_on body s o l) w in
  let w2 := after (call_emit body options s args) w1 in
  ∃ evs, trace w2 = trace w1 ++ evs ∧ deliveries Dispatch s l evs = [args].
Proof.
  intros Hreach Hon Hemit w1 w2.
  destruct (call_on_subscribed body options w s o l Hreach Hon)
    as (Hwf & Hl & _ & _ & Hs1 & _). fold w1 in Hwf, Hl, Hs1.
  rewrite Hemit in Hs1.
  destruct (emit_delivers body options s args w1 l Hs1 Hwf) as (evs & Ht & _ & Hd).
  exists evs. split; [done|]. by rewrite Hd, decide_True.
Qed.

Lemma subscribe_then_emit_delivers_once_witness :
  let w := run demo_body demo_options [On "ping" None 1; On "ping" None 2]
             (constructor demo_options) in
  reachable demo_body demo_options w ∧
  emitter_on_slot w = Original ∧
  emit_slot w = Original ∧
  let w1 := after (SignalEmitter.call_on demo_body "ping"
                     (Some {| once := true; signal := None |}) 1) w in
  let w2 := after (call_emit demo_body demo_options "ping" [5%Z]) w1 in
  ∃ evs, trace w2 = trace w1 ++ evs ∧ deliveries Dispatch "ping" 1 evs = [[5%Z]].
Proof.
  cbv zeta.
  assert (reachable demo_body demo_options
            (run demo_body demo_options [On "ping" None 1; On "ping" None 2]
               (constructor demo_options))) as Hreach by (by eexists).
  split; [exact Hreach|]. split; [reflexivity|]. split; [reflexivity|].
  apply (subscribe_then_emit_delivers_once demo_body demo_options _ "ping"
           (Some {| once := true; signal := None |}) 1 [5%Z] Hreach);
    reflexivity.
Defined.

Lemma call_on_listeners_of body s o l w :
  emitter_on_slot w = Original →
  listeners_of (listeners (after (SignalEmitter.call_on body s o l) w)) s =
    Set_add l (listeners_of (listeners w) s).
Proof.
  intros Hon. destruct (call_on_world body s o l w Hon) as (Hl & _).
  cbv zeta in Hl. unfold listeners_of at 1. by rewrite Hl, lookup_insert_eq.
Qed.

Lemma subscriptions_append body options s subs w :
  reachable body options w →
  emitter_on_slot w = Original →
  NoDup subs.*2 →
  (∀ l, l ∈ subs.*2 → l ∉ listeners_of (listeners w) s) →
  let w1 := run body options (map (λ sub, On s sub.1 sub.2) subs) w in
  reachable body options w1 ∧
  emit_slot w1 = emit_slot w ∧
  listeners_of (listeners w1) s = listeners_of (listeners w) s ++ subs.*2.
Proof.
  revert w. induction subs as [|[o l] subs IH]; intros w Hreach Hon Hnd Hfresh.
  - cbv zeta. simpl. by rewrite app_nil_r.
  - cbv zeta. rewrite map_cons, run_cons. simpl exec. simpl in Hnd, Hfresh.
    apply NoDup_cons in Hnd as [Hl Hnd].
    destruct (call_on_subscribed body options w s o l Hreach Hon)
      as (_ & _ & _ & _ & Hs1 & Hon1).
    pose proof (call_on_listeners_of body s o l w Hon) as Hset.
    unfold Set_add in Hset. rewrite decide_False in Hset by (apply Hfresh; left).
    pose proof (reachable_step body options (On s o l) w Hreach) as Hreach1.
    simpl exec in Hreach1.
    destruct (IH _ Hreach1 Hon1 Hnd) as (Hr & He & Hls).
    + intros l' Hl'. rewrite Hset, elem_of_app, list_elem_of_singleton.
      intros [Hin | ->]; [|done]. revert Hin. apply Hfresh. by right.
    + split; [done|]. split; [by rewrite He|].
      rewrite Hls, Hset, <- app_assoc. done.
Qed.

(** X9. Listeners are called in the order of their subscription.  When
    distinct listeners that were not subscribed to [s] subscribe one after
    the other, with any options, they join the set of [s] behind the
    listeners already there, in that order, and the next emission of [s]
    calls the whole set in that order, once each, with the emitted
    arguments. *)
Theorem dispatch_follows_subscription_order body options w s subs args :
  reachable body options w →
  emitter_on_slot w = Original →
  emit_slot w = Original →
  NoDup subs.*2 →
  (∀ l, l ∈ subs.*2 → l ∉ listeners_of (listeners w) s) →
  let w1 := run body options (map (λ sub, On s sub.1 sub.2) subs) w in
  listeners_of (listeners w1) s = listeners_of (listeners w) s ++ subs.*2 ∧
  ∃ evs, trace (after (call_emit body options s args) w1) = trace w1 ++ evs ∧
    omap call_view evs =
      map (λ l, (Dispatch, s, l, args)) (listeners_of (listeners w) s ++ subs.*2).
Proof.
  intros Hreach Hon Hemit Hnd Hfresh w1.
  destruct (subscriptions_append body options s subs w Hreach Hon Hnd Hfresh)
    as (Hreach1 & Hs1 & Hls). fold w1 in Hreach1, Hs1, Hls.
  split; [done|]. rewrite Hemit in Hs1.
  destruct (emit_delivers body options s args w1 0 Hs1
              (reachable_wf body options w1 Hreach1)) as (evs & Ht & Hv & _).
  exists evs. split; [done|]. by rewrite Hv, Hls.
Qed.

Lemma dispatch_follows_subscription_order_witness :
  let w := run demo_body demo_options [On "ping" None 4]
             (constructor demo_options) in
  let subs := [(None, 9); (Some {| once := true; signal := None |}, 7); (None, 2)] in
  reachable demo_body demo_options w ∧
  emitter_on_slot w = Original ∧
  emit_slot w = Original ∧
  NoDup subs.*2 ∧
  (∀ l, l ∈ subs.*2 → l ∉ listeners_of (listeners w) "ping") ∧
  let w1 := run demo_body demo_options (map (λ sub, On "ping" sub.1 sub.2) subs) w in
  listeners_of (listeners w1) "ping" = [4; 9; 7; 2] ∧
  ∃ evs, trace (after (call_emit demo_body demo_options "ping" [1%Z]) w1) =
           trace w1 ++ evs ∧
    omap call_view evs =
      [(Dispatch, "ping", 4, [1%Z]); (Dispatch, "ping", 9, [1%Z]);
       (Dispatch, "ping", 7, [1%Z]); (Dispatch, "ping", 2, [1%Z])].
Proof.
  cbv zeta.
  assert (reachable demo_body demo_options
            (run demo_body demo_options [On "ping" None 4]
               (constructor demo_options))) as Hreach by (by eexists).
  assert (NoDup [(None, 9); (Some {| once := true; signal := None |}, 7);
                 (None : option SignalListenerOptions, 2)].*2) as Hnd.
  { simpl. repeat (apply NoDup_cons; split;
      [intros Hin%list_elem_of_In; simpl in Hin; lia|]). apply NoDup_nil_2. }
  assert (∀ l, l ∈ [(None, 9); (Some {| once := true; signal := None |}, 7);
                    (None : option SignalListenerOptions, 2)].*2 →
               l ∉ listeners_of (listeners
                     (run demo_body demo_options [On "ping" None 4]
                        (constructor demo_options))) "ping") as Hfresh.
  { intros l Hl%list_elem_of_In Hin%list_elem_of_In.
    vm_compute in Hin. simpl in Hl. lia. }
  split; [exact Hreach|]. split; [reflexivity|]. split; [reflexivity|].
  split; [exact Hnd|]. split; [exact Hfresh|].
  apply (dispatch_follows_subscription_order demo_body demo_options _ "ping"
           [(None, 9); (Some {| once := true; signal := None |}, 7); (None, 2)]
           [1%Z] Hreach eq_refl eq_refl Hnd Hfresh).
Defined.

(** X10. Subscribing a listener that was not subscribed to [s] and then
    calling [off(s, l)] gives back the registry as it was: the same
    signals, the same sets, in the same order. *)
Theorem on_then_off_restores_registry body options w s o l :
  reachable body options w →
  emitter_on_slot w = Original →
  l ∉ listeners_of (listeners w) s →
  listeners (after (SignalEmitter.off s l) (after (SignalEmitter.call_on body s o l) w)) =
    listeners w.
Proof.
  intros Hwf%reachable_wf Hon Hl.
  destruct (call_on_world body s o l w Hon) as (Hl1 & _). cbv zeta in Hl1.
  assert (Set_add l (listeners_of (listeners w) s) = listeners_of (listeners w) s ++ [l])
    as Hadd by (unfold Set_add; by rewrite decide_False).
  rewrite Hadd in Hl1.
  unfold after at 1. rewrite off_run. simpl. rewrite Hl1.
  unfold unregister. rewrite lookup_insert_eq.
  assert (Set_delete l (listeners_of (listeners w) s ++ [l]) =
          listeners_of (listeners w) s) as ->.
  { unfold Set_delete. rewrite filter_app, filter_cons_False, filter_nil, app_nil_r
      by (intros Hne; by apply Hne).
    by apply Set_delete_absent. }
  pose proof (lookup_listeners_of (listeners w) s Hwf) as Hiff.
  unfold listeners_of in *. destruct (listeners w !! s) as [ls|] eqn:Hls; cbn [default].
  - destruct (Hwf s ls Hls) as [Hne _].
    case_decide as Hlen; [by apply nil_length_inv in Hlen|].
    rewrite insert_insert_eq. by apply insert_id.
  - case_decide as Hlen; [|done]. rewrite delete_insert_eq. by apply delete_id.
Qed.

Lemma on_then_off_restores_registry_witness :
  let w := run demo_body demo_options [On "ping" None 1; On "pong" None 2]
             (constructor demo_options) in
  reachable demo_body demo_options w ∧
  emitter_on_slot w = Original ∧
  (3 ∉ listeners_of (listeners w) "ping") ∧
  listeners (after (SignalEmitter.off "ping" 3)
               (after (SignalEmitter.call_on demo_body "ping"
                         (Some {| once := true; signal := Some 0 |}) 3) w)) =
    listeners w.
Proof.
  cbv zeta.
  assert (reachable demo_body demo_options
            (run demo_body demo_options [On "ping" None 1; On "pong" None 2]
               (constructor demo_options))) as Hreach by (by eexists).
  assert (3 ∉ listeners_of (listeners
            (run demo_body demo_options [On "ping" None 1; On "pong" None 2]
               (constructor demo_options))) "ping") as Hfresh.
  { intros Hin%list_elem_of_In. vm_compute in Hin. lia. }
  split; [exact Hreach|]. split; [reflexivity|]. split; [exact Hfresh|].
  apply (on_then_off_restores_registry demo_body demo_options _ "ping"
           (Some {| once := true; signal := Some 0 |}) 3 Hreach eq_refl Hfresh).
Defined.

(** ** Streams *)

Module Adapters.
Section Adapters.
Context (body : Listener → Args → option Value).
Context (options : SignalControllerOptions).

(** [createWritableStream(signalName)], lines 224-228: the [write] of the
    stream, [args => void this.emit(signalName, ...args)]. *)
Definition createWritableStream_write (signalName : Signal) (chunk : Args) : Js unit :=
  SignalController.call_emit body options signalName chunk ;; ret tt.

(** [createReadableStream(signalName)], lines 110-120.  The stream is made
    with a fresh [AbortController], [aborter], and its [start] subscribes a
    fresh closure, [sink], whose body is [controller.enqueue(args)]: the
    chunks of the stream are the arguments [sink] is called with. *)
Definition createReadableStream_start (signalName : Signal) (aborter : AbortId)
    (sink : Listener) : Js unit :=
  SignalEmitter.call_on body signalName
    (Some {| once := false; signal := Some aborter |}) sink.

(** The [cancel] of the stream, [reason => aborter.abort(reason)]. *)
Definition createReadableStream_cancel (aborter : AbortId) : Js unit :=
  SignalEmitter.abort aborter.

(** [once(signalName, { signal })], lines 124-129: what the executor of the
    promise does to the emitter.  [resolver] is the fresh closure
    [values => resolve(values)].  The handler put on the caller's [signal]
    is [reason => reject(reason)]: it settles the promise and touches
    neither the emitter nor a listener, and [signal] is not handed to
    [on]. *)
Definition SignalEmitter_once (signalName : Signal) (signal : option AbortId)
    (resolver : Listener) : Js unit :=
  SignalEmitter.call_on body signalName
    (Some {| once := true; signal := None |}) resolver.
End Adapters.
End Adapters.

Lemma deliveries_length via s l t :
  length (deliveries via s l t) = calls via s l t.
Proof.
  induction t as [|e t IH]; [done|]. rewrite calls_cons, <- IH.
  unfold deliveries. simpl. destruct e; simpl; try done.
  by destruct (_ && _).
Qed.

Section Streams.
Context (body : Listener → Args → option Value).
Context (options : SignalControllerOptions).

Lemma writes_are_emissions s chunks w :
  foldl (λ w chunk, after (Adapters.createWritableStream_write body options s chunk) w)
        w chunks =
    run body options (map (Emit s) chunks) w.
Proof.
  revert w. induction chunks as [|c chunks IH]; intros w; [done|].
  simpl. rewrite IH. done.
Qed.

Lemma emission_keeps_aborts s args w :
  aborted (after (call_emit body options s args) w) = aborted w ∧
  abort_handlers (after (call_emit body options s args) w) = abort_handlers w.
Proof.
  destruct (emit_slot w) eqn:Hslot.
  - rewrite emit_world by done. unfold add_events. simpl.
    destruct (loop_fields s args (listeners_of (listeners w) s) (record_last s args w))
      as (_ & _ & _ & _ & -> & ->). done.
  - unfold after. by rewrite call_emit_run, Hslot.
Qed.

(** Emissions of [s] seen from a listener of [s] without the fire-once
    flag: it receives every one of them, in order, and stays. *)
Lemma emissions_delivered s l chunks w :
  wf (listeners w) →
  emit_slot w = Original →
  l ∈ listeners_of (listeners w) s →
  l ∉ ONCE_SYMBOL w →
  let w' := run body options (map (Emit s) chunks) w in
  wf (listeners w') ∧
  l ∈ listeners_of (listeners w') s ∧
  aborted w' = aborted w ∧ abort_handlers w' = abort_handlers w ∧
  ∃ evs, trace w' = trace w ++ evs ∧ deliveries Dispatch s l evs = chunks.
Proof.
  revert w. induction chunks as [|args chunks IH]; intros w Hwf Hslot Hl Ho.
  - cbv zeta. simpl. split; [done|]. split; [done|]. split; [done|]. split; [done|].
    exists []. by rewrite app_nil_r.
  - cbv zeta. rewrite map_cons, run_cons, after_exec_Emit.
    pose proof (emit_summary body options s args w l Hslot)
      as (Hslot1 & _ & Ho1 & Hls & _).
    destruct (emit_delivers body options s args w l Hslot Hwf) as (evs1 & Ht1 & _ & Hd1).
    rewrite decide_True in Hd1 by done.
    destruct (emission_keeps_aborts s args w) as [Ha1 Hh1].
    assert (wf (listeners (after (call_emit body options s args) w))) as Hwf1
      by (rewrite <- after_exec_Emit; by apply exec_wf).
    destruct (IH _ Hwf1 Hslot1) as (Hwf2 & Hl2 & Ha2 & Hh2 & evs2 & Ht2 & Hd2).
    + rewrite Hls, list_elem_of_filter. tauto.
    + rewrite Ho1. set_solver.
    + split; [done|]. split; [done|]. split; [by rewrite Ha2|]. split; [by rewrite Hh2|].
      exists (evs1 ++ evs2).
      rewrite Ht2, Ht1, <- app_assoc, deliveries_app, Hd1, Hd2. done.
Qed.

End Streams.

(** Firing an abort signal that has not fired yet takes every listener it
    was given with out of the set it was subscribed to. *)
Lemma abort_removes a s l w :
  a ∉ aborted w →
  (a, (s, l)) ∈ abort_handlers w →
  ∃ w', SignalEmitter.abort a w = (Normal tt, w') ∧
    (l ∉ listeners_of (listeners w') s) ∧
    (l ∉ ONCE_SYMBOL w') ∧
    a ∈ aborted w' ∧
    trace w' = trace w.
Proof.
  intros Ha Hh. rewrite abort_run, bool_decide_eq_false_2 by done.
  eexists. split; [reflexivity|].
  set (w0 := set_abort_handlers _ _).
  set (hs := filter (λ h, h.1 = a) (abort_handlers w)).
  assert ((a, (s, l)) ∈ hs) as Hin by (apply list_elem_of_filter; by split).
  pose proof (foldl_off_listeners_of (λ h : nat * (string * nat), h.2.1)
                (λ h, h.2.2) hs w0 s) as Hs.
  pose proof (foldl_off_ONCE (λ h : nat * (string * nat), h.2.1)
                (λ h, h.2.2) hs w0) as Ho.
  pose proof (foldl_off_fields (λ h : nat * (string * nat), h.2.1)
                (λ h, h.2.2) hs w0) as Hf.
  cbv beta zeta in Hs, Ho, Hf. destruct Hf as (_ & _ & _ & Ht).
  split; [|split; [|split]].
  - rewrite Hs, list_elem_of_filter. intros [Hnot _]. apply Hnot.
    apply list_elem_of_In, in_map_iff. exists (a, (s, l)).
    split; [done|by apply list_elem_of_In].
  - rewrite Ho. intros [_ Hnot]%elem_of_difference. apply Hnot.
    apply elem_of_list_to_set, list_elem_of_In, in_map_iff. exists (a, (s, l)).
    split; [done|by apply list_elem_of_In].
  - assert (aborted (foldl (λ w (h : nat * (string * nat)), off_world h.2.1 h.2.2 w)
                       w0 hs) = aborted w0) as ->.
    { clear. generalize w0. induction hs as [|h hs IH]; intros w1; [done|].
      simpl. by rewrite IH. }
    subst w0. simpl. set_solver.
  - by rewrite Ht.
Qed.

(** X11. A write into the writable stream of [s] never throws, and the
    chunks written reach a listener subscribed to [s] without [once], and
    not marked fire-once through another subscription, in the order they
    were written, once each; the listener stays subscribed. *)
Theorem writes_reach_listener_in_order body options w s o l chunks :
  reachable body options w →
  emitter_on_slot w = Original →
  emit_slot w = Original →
  l ∉ ONCE_SYMBOL w →
  from_option once false o = false →
  let w1 := after (SignalEmitter.call_on body s o l) w in
  let w2 := foldl (λ w chunk,
                     after (Adapters.createWritableStream_write body options s chunk) w)
                  w1 chunks in
  (∀ w' chunk, (Adapters.createWritableStream_write body options s chunk w').1 = Normal tt) ∧
  l ∈ listeners_of (listeners w2) s ∧
  ∃ evs, trace w2 = trace w1 ++ evs ∧ deliveries Dispatch s l evs = chunks.
Proof.
  intros Hreach Hon Hemit Ho Honce w1 w2. split.
  - intros w' chunk. unfold Adapters.createWritableStream_write, bind.
    rewrite call_emit_run. destruct (emit_slot w'); [|done].
    rewrite emit_run. by destruct (listeners w' !! s).
  - subst w2. rewrite writes_are_emissions.
    destruct (call_on_subscribed body options w s o l Hreach Hon)
      as (Hwf & Hl & Ho1 & _ & Hs1 & _). fold w1 in Hwf, Hl, Ho1, Hs1.
    rewrite Honce in Ho1. rewrite Hemit in Hs1.
    destruct (emissions_delivered body options s l chunks w1 Hwf Hs1 Hl)
      as (_ & Hl2 & _ & _ & Hevs); [by rewrite Ho1|]. done.
Qed.

Lemma writes_reach_listener_in_order_witness :
  reachable demo_body demo_options (constructor demo_options) ∧
  emitter_on_slot (constructor demo_options) = Original ∧
  emit_slot (constructor demo_options) = Original ∧
  (7 ∉ ONCE_SYMBOL (constructor demo_options)) ∧
  from_option once false None = false ∧
  let w1 := after (SignalEmitter.call_on demo_body "tick" None 7)
                  (constructor demo_options) in
  let w2 := foldl (λ w chunk,
                     after (Adapters.createWritableStream_write
                              demo_body demo_options "tick" chunk) w)
                  w1 [[1%Z]; [2%Z]; []] in
  7 ∈ listeners_of (listeners w2) "tick" ∧
  ∃ evs, trace w2 = trace w1 ++ evs ∧
         deliveries Dispatch "tick" 7 evs = [[1%Z]; [2%Z]; []].
Proof.
  assert (7 ∉ ONCE_SYMBOL (constructor demo_options)) as Hfresh.
  { assert (ONCE_SYMBOL (constructor demo_options) = ∅) as -> by reflexivity.
    apply not_elem_of_empty. }
  split; [apply fresh_reachable|]. split; [reflexivity|]. split; [reflexivity|].
  split; [exact Hfresh|]. split; [reflexivity|].
  apply (writes_reach_listener_in_order demo_body demo_options
           (constructor demo_options) "tick" None 7 [[1%Z]; [2%Z]; []]
           (fresh_reachable demo_body demo_options) eq_refl eq_refl Hfresh eq_refl).
Defined.

(** ** Abort signals *)

(** X12. A listener subscribed with an abort signal that has not fired is
    unsubscribed when the signal fires: the abort never throws and calls
    nobody, the listener is out of the set and has lost its fire-once flag,
    and firing the signal again changes nothing. *)
Theorem abort_unsubscribes body options w s b a l :
  reachable body options w →
  emitter_on_slot w = Original →
  a ∉ aborted w →
  let w1 := after (SignalEmitter.call_on body s (Some {| once := b; signal := Some a |}) l) w in
  l ∈ listeners_of (listeners w1) s ∧
  ∃ w2, SignalEmitter.abort a w1 = (Normal tt, w2) ∧
    (l ∉ listeners_of (listeners w2) s) ∧
    (l ∉ ONCE_SYMBOL w2) ∧
    trace w2 = trace w1 ∧
    SignalEmitter.abort a w2 = (Normal tt, w2).
Proof.
  intros Hreach Hon Ha w1.
  destruct (call_on_subscribed body options w s
              (Some {| once := b; signal := Some a |}) l Hreach Hon) as (_ & Hl & _).
  destruct (call_on_world body s (Some {| once := b; signal := Some a |}) l w Hon)
    as (_ & Ha1 & Hh1). fold w1 in Hl, Ha1, Hh1. simpl in Hh1.
  split; [done|].
  destruct (abort_removes a s l w1) as (w2 & Hrun & Hl2 & Ho2 & Ha2 & Ht2).
  - by rewrite Ha1.
  - rewrite Hh1, elem_of_app, list_elem_of_singleton. by right.
  - exists w2. split; [done|]. split; [done|]. split; [done|]. split; [done|].
    by rewrite abort_run, bool_decide_eq_true_2.
Qed.

Lemma abort_unsubscribes_witness :
  reachable demo_body demo_options demo_world ∧
  emitter_on_slot demo_world = Original ∧
  (0 ∉ aborted demo_world) ∧
  let w1 := after (SignalEmitter.call_on demo_body "x"
                     (Some {| once := true; signal := Some 0 |}) 5) demo_world in
  5 ∈ listeners_of (listeners w1) "x" ∧
  ∃ w2, SignalEmitter.abort 0 w1 = (Normal tt, w2) ∧
    (5 ∉ listeners_of (listeners w2) "x") ∧
    (5 ∉ ONCE_SYMBOL w2) ∧
    trace w2 = trace w1 ∧
    SignalEmitter.abort 0 w2 = (Normal tt, w2).
Proof.
  assert (0 ∉ aborted demo_world) as Hfresh.
  { assert (aborted demo_world = ∅) as -> by reflexivity. apply not_elem_of_empty. }
  split; [apply demo_world_reachable|]. split; [reflexivity|]. split; [exact Hfresh|].
  apply (abort_unsubscribes demo_body demo_options demo_world "x" true 0 5
           demo_world_reachable eq_refl Hfresh).
Defined.

(** X13. [on] does not look at whether the abort signal it is given has
    already fired.  A listener subscribed with a signal that has fired is
    subscribed like any other, and that signal never removes it: firing it
    again changes nothing. *)
Theorem aborted_signal_never_unsubscribes body options w s b a l :
  reachable body options w →
  emitter_on_slot w = Original →
  a ∈ aborted w →
  let w1 := after (SignalEmitter.call_on body s (Some {| once := b; signal := Some a |}) l) w in
  l ∈ listeners_of (listeners w1) s ∧
  SignalEmitter.abort a w1 = (Normal tt, w1).
Proof.
  intros Hreach Hon Ha w1.
  destruct (call_on_subscribed body options w s
              (Some {| once := b; signal := Some a |}) l Hreach Hon) as (_ & Hl & _).
  destruct (call_on_world body s (Some {| once := b; signal := Some a |}) l w Hon)
    as (_ & Ha1 & _). fold w1 in Hl, Ha1.
  split; [done|]. rewrite abort_run, bool_decide_eq_true_2; [done|]. by rewrite Ha1.
Qed.

Lemma aborted_signal_never_unsubscribes_witness :
  let w := run demo_body demo_options [Abort 0] (constructor demo_options) in
  reachable demo_body demo_options w ∧
  emitter_on_slot w = Original ∧
  0 ∈ aborted w ∧
  let w1 := after (SignalEmitter.call_on demo_body "x"
                     (Some {| once := false; signal := Some 0 |}) 5) w in
  5 ∈ listeners_of (listeners w1) "x" ∧
  SignalEmitter.abort 0 w1 = (Normal tt, w1).
Proof.
  cbv zeta.
  assert (reachable demo_body demo_options
            (run demo_body demo_options [Abort 0] (constructor demo_options)))
    as Hreach by (by eexists).
  assert (0 ∈ aborted (run demo_body demo_options [Abort 0] (constructor demo_options)))
    as Hfired.
  { assert (aborted (run demo_body demo_options [Abort 0] (constructor demo_options))
            = {[0]} ∪ ∅) as -> by reflexivity.
    set_solver. }
  split; [exact Hreach|]. split; [reflexivity|]. split; [exact Hfired|].
  apply (aborted_signal_never_unsubscribes demo_body demo_options _ "x" false 0 5
           Hreach eq_refl Hfired).
Defined.

(** ** The readable stream and the promise of [once] *)

(** X14. A readable stream made for [s] on an active controller receives,
    as chunks, the arguments recorded for [s] if there are any (immediate
    mode), then the arguments of every emission of [s], in order, once
    each.  Cancelling the stream never throws and unsubscribes its
    listener: later emissions of [s] give it nothing. *)
Theorem readable_stream_yields_emissions_until_cancel
    body options w s aborter sink chunks more :
  reachable body options w →
  emitter_on_slot w = Original →
  emit_slot w = Original →
  aborter ∉ aborted w →
  sink ∉ ONCE_SYMBOL w →
  let w1 := after (Adapters.createReadableStream_start body s aborter sink) w in
  let w2 := run body options (map (Emit s) chunks) w1 in
  let w3 := after (Adapters.createReadableStream_cancel aborter) w2 in
  let w4 := run body options (map (Emit s) more) w3 in
  (∃ evs, trace w1 = trace w ++ evs ∧
          deliveries Replay s sink evs = option_list (lastArgs w ≫= (λ m, m !! s))) ∧
  (∃ evs, trace w2 = trace w1 ++ evs ∧ deliveries Dispatch s sink evs = chunks) ∧
  (Adapters.createReadableStream_cancel aborter w2).1 = Normal tt ∧
  (sink ∉ listeners_of (listeners w3) s) ∧
  (∃ evs, trace w4 = trace w3 ++ evs ∧ deliveries Dispatch s sink evs = []).
Proof.
  intros Hreach Hon Hemit Ha Ho w1 w2 w3 w4.
  unfold Adapters.createReadableStream_start, Adapters.createReadableStream_cancel in *.
  set (o := Some {| once := false; signal := Some aborter |}) in *.
  destruct (call_on_subscribed body options w s o sink Hreach Hon)
    as (Hwf1 & Hl1 & Ho1 & _ & Hs1 & _).
  destruct (call_on_world body s o sink w Hon) as (_ & Ha1 & Hh1).
  fold w1 in Hwf1, Hl1, Ho1, Hs1, Ha1, Hh1. simpl in Ho1, Hh1. rewrite Hemit in Hs1.
  destruct (emissions_delivered body options s sink chunks w1 Hwf1 Hs1 Hl1)
    as (Hwf2 & Hl2 & Ha2 & Hh2 & Hevs2); [by rewrite Ho1|].
  fold w2 in Hwf2, Hl2, Ha2, Hh2, Hevs2.
  destruct (abort_removes aborter s sink w2) as (w3' & Hrun & Hl3 & _ & _ & _).
  { by rewrite Ha2, Ha1. }
  { rewrite Hh2, Hh1, elem_of_app, list_elem_of_singleton. by right. }
  assert (w3 = w3') as Hw3 by (subst w3; unfold after; by rewrite Hrun).
  assert (wf (listeners w3)) as Hwf3.
  { subst w3. by apply (exec_wf body options (Abort aborter)). }
  split; [|split; [done|split; [by rewrite Hrun|split; [by rewrite Hw3|]]]].
  - subst w1. unfold after. rewrite call_on_run, Hon. cbn [snd]. unfold on_world.
    destruct (registered_fields s o sink w) as (_ & _ & _ & Ht & _).
    destruct (lastArgs w ≫= (λ m, m !! s)) as [last|]; cbn [option_list].
    + eexists. split; [unfold set_trace; cbn [trace]; rewrite Ht; reflexivity|].
      unfold deliveries. simpl. by rewrite !bool_decide_eq_true_2.
    + exists []. by rewrite Ht, app_nil_r.
  - destruct (emissions_absent body options s sink more w3 Hwf3)
      as (_ & evs & Ht & Hc & _); [by rewrite Hw3|].
    exists evs. split; [done|]. apply nil_length_inv. by rewrite deliveries_length.
Qed.

Lemma readable_stream_yields_emissions_until_cancel_witness :
  reachable demo_body demo_options demo_world ∧
  emitter_on_slot demo_world = Original ∧
  emit_slot demo_world = Original ∧
  (0 ∉ aborted demo_world) ∧
  (5 ∉ ONCE_SYMBOL demo_world) ∧
  let w1 := after (Adapters.createReadableStream_start demo_body "x" 0 5) demo_world in
  let w2 := run demo_body demo_options (map (Emit "x") [[1%Z]; [2%Z]]) w1 in
  let w3 := after (Adapters.createReadableStream_cancel 0) w2 in
  let w4 := run demo_body demo_options (map (Emit "x") [[3%Z]]) w3 in
  (∃ evs, trace w1 = trace demo_world ++ evs ∧
          deliveries Replay "x" 5 evs = [[42%Z]]) ∧
  (∃ evs, trace w2 = trace w1 ++ evs ∧
          deliveries Dispatch "x" 5 evs = [[1%Z]; [2%Z]]) ∧
  (Adapters.createReadableStream_cancel 0 w2).1 = Normal tt ∧
  (5 ∉ listeners_of (listeners w3) "x") ∧
  (∃ evs, trace w4 = trace w3 ++ evs ∧ deliveries Dispatch "x" 5 evs = []).
Proof.
  assert (0 ∉ aborted demo_world) as Hfresh.
  { assert (aborted demo_world = ∅) as -> by reflexivity. apply not_elem_of_empty. }
  assert (5 ∉ ONCE_SYMBOL demo_world) as Hplain.
  { assert (ONCE_SYMBOL demo_world = ∅) as -> by reflexivity. apply not_elem_of_empty. }
  split; [apply demo_world_reachable|]. split; [reflexivity|]. split; [reflexivity|].
  split; [exact Hfresh|]. split; [exact Hplain|].
  apply (readable_stream_yields_emissions_until_cancel demo_body demo_options
           demo_world "x" 0 5 [[1%Z]; [2%Z]] [[3%Z]]
           demo_world_reachable eq_refl eq_refl Hfresh Hplain).
Defined.

(** X15. The listener that [once] subscribes for its promise is not tied to
    the abort signal given to [once].  When the listener is a fresh closure
    (no abort handler refers to it), firing that signal, or any other,
    leaves it subscribed and flagged fire-once: only an emission of the
    signal, or an explicit [off], removes it. *)
Theorem once_listener_survives_abort body options w s signal resolver a :
  reachable body options w →
  emitter_on_slot w = Original →
  (∀ h, h ∈ abort_handlers w → h.2.2 ≠ resolver) →
  let w1 := after (Adapters.SignalEmitter_once body s signal resolver) w in
  let w2 := after (SignalEmitter.abort a) w1 in
  abort_handlers w1 = abort_handlers w ∧
  resolver ∈ listeners_of (listeners w2) s ∧
  resolver ∈ ONCE_SYMBOL w2.
Proof.
  intros Hreach Hon Hfresh w1 w2. unfold Adapters.SignalEmitter_once in *.
  set (o := Some {| once := true; signal := None |}) in *.
  destruct (call_on_subscribed body options w s o resolver Hreach Hon)
    as (_ & Hl1 & Ho1 & _).
  destruct (call_on_world body s o resolver w Hon) as (_ & _ & Hh1).
  fold w1 in Hl1, Ho1, Hh1. simpl in Ho1, Hh1. rewrite app_nil_r in Hh1.
  split; [done|]. subst w2. unfold after. rewrite abort_run.
  destruct (bool_decide (a ∈ aborted w1)); simpl.
  - split; [done|]. rewrite Ho1. set_solver.
  - set (w0 := set_abort_handlers _ _).
    set (hs := filter (λ h, h.1 = a) (abort_handlers w1)).
    assert (∀ h, h ∈ hs → h.2.2 ≠ resolver) as Hhs.
    { intros h [_ Hh]%list_elem_of_filter. apply Hfresh. by rewrite <- Hh1. }
    pose proof (foldl_off_listeners_of (λ h : nat * (string * nat), h.2.1)
                  (λ h, h.2.2) hs w0 s) as Hs.
    pose proof (foldl_off_ONCE (λ h : nat * (string * nat), h.2.1)
                  (λ h, h.2.2) hs w0) as Ho.
    cbv beta in Hs, Ho. split.
    + rewrite Hs, list_elem_of_filter. split; [|done].
      intros Hin%list_elem_of_In%in_map_iff. destruct Hin as (h & Heq & Hh).
      apply list_elem_of_In in Hh. apply (Hhs h Hh). by injection Heq.
    + rewrite Ho. apply elem_of_difference. split; [subst w0; simpl; rewrite Ho1; set_solver|].
      intros Hin%elem_of_list_to_set%list_elem_of_In%in_map_iff.
      destruct Hin as (h & Heq & Hh). apply list_elem_of_In in Hh. by apply (Hhs h Hh).
Qed.

Lemma once_listener_survives_abort_witness :
  let w := run demo_body demo_options
             [On "x" (Some {| once := false; signal := Some 0 |}) 1]
             (constructor demo_options) in
  reachable demo_body demo_options w ∧
  emitter_on_slot w = Original ∧
  (∀ h, h ∈ abort_handlers w → h.2.2 ≠ 5) ∧
  let w1 := after (Adapters.SignalEmitter_once demo_body "x" (Some 0) 5) w in
  let w2 := after (SignalEmitter.abort 0) w1 in
  abort_handlers w1 = abort_handlers w ∧
  5 ∈ listeners_of (listeners w2) "x" ∧
  5 ∈ ONCE_SYMBOL w2.
Proof.
  cbv zeta.
  assert (reachable demo_body demo_options
            (run demo_body demo_options
               [On "x" (Some {| once := false; signal := Some 0 |}) 1]
               (constructor demo_options))) as Hreach by (by eexists).
  assert (∀ h, h ∈ abort_handlers
            (run demo_body demo_options
               [On "x" (Some {| once := false; signal := Some 0 |}) 1]
               (constructor demo_options)) → h.2.2 ≠ 5) as Hfresh.
  { intros h Hh%list_elem_of_In. simpl in Hh. destruct Hh as [<-|[]]. simpl. lia. }
  split; [exact Hreach|]. split; [reflexivity|]. split; [exact Hfresh|].
  apply (once_listener_survives_abort demo_body demo_options _ "x" (Some 0) 5 0
           Hreach eq_refl Hfresh).
Defined.

(** ** What an emission leaves alone *)

(** X16. An emission of [s] on an active controller adds no listener
    anywhere and leaves the listener sets of every other signal as they
    were; in the set of [s] it keeps, in order, exactly the listeners that
    did not carry the fire-once flag; and it clears that flag on every
    listener of [s], whatever signal the flag was set for. *)
Theorem emission_touches_only_its_signal body options w s args :
  emit_slot w = Original →
  let w' := after (call_emit body options s args) w in
  (∀ s', s' ≠ s → listeners w' !! s' = listeners w !! s') ∧
  listeners_of (listeners w') s =
    filter (λ l, l ∉ ONCE_SYMBOL w) (listeners_of (listeners w) s) ∧
  ONCE_SYMBOL w' = ONCE_SYMBOL w ∖ list_to_set (listeners_of (listeners w) s) ∧
  abort_handlers w' = abort_handlers w.
Proof.
  intros Hslot w'.
  pose proof (emit_summary body options s args w 0 Hslot)
    as (_ & _ & Ho & Hls & Hother & _).
  destruct (emission_keeps_aborts body options s args w) as [_ Hh].
  fold w' in Ho, Hls, Hother, Hh.
  split; [done|]. split; [|by split].
  rewrite Hls. apply filter_ext_elem. intros l Hl. tauto.
Qed.

Lemma emission_touches_only_its_signal_witness :
  let w := run demo_body demo_options
             [On "a" (Some {| once := true; signal := None |}) 1; On "a" None 2;
              On "b" None 1]
             (constructor demo_options) in
  emit_slot w = Original ∧
  let w' := after (call_emit demo_body demo_options "a" [1%Z]) w in
  listeners w' !! "b" = Some [1] ∧
  listeners_of (listeners w') "a" = [2] ∧
  ONCE_SYMBOL w' = ∅.
Proof.
  cbv zeta. split; [reflexivity|].
  destruct (emission_touches_only_its_signal demo_body demo_options
              (run demo_body demo_options
                 [On "a" (Some {| once := true; signal := None |}) 1; On "a" None 2;
                  On "b" None 1]
                 (constructor demo_options)) "a" [1%Z] eq_refl)
    as (Hother & Hset & Hflags & _).
  split; [rewrite Hother by discriminate; reflexivity|].
  split; [rewrite Hset; reflexivity|].
  rewrite Hflags. reflexivity.
Defined.
